(** * pdfreader: the range engine (parsers/cmap.py) and the document
      resolution engine (document.py)

    A shallow embedding of the two modules and the properties that their
    specification states about them.  Python integers are [Z]; Python
    exceptions are the [Raise] branch of a result type; objects that the
    code updates in place live in an explicit store. *)

From Stdlib Require Import ZArith List Bool Lia Ascii String.
From Stdlib Require HexString.
From stdpp Require Import base option list list_numbers sorting gmap strings.

Local Open Scope Z_scope.

(** ** Results of a call: a value or a raised exception *)

Inductive result (E A : Type) : Type :=
  | Ok (a : A)
  | Raise (e : E).
Arguments Ok {E A} a.
Arguments Raise {E A} e.

(* ===================================================================== *)
(** * parsers/cmap.py *)
(* ===================================================================== *)

Module cmap.

(** [types.HexString] is outside this module; the range classes use it
    through one attribute only, [as_int]. *)
Class HexStringLike (H : Type) := { as_int : H -> Z }.

(** What a caller passes where the code tests [isinstance(_, HexString)]. *)
Inductive operand (H : Type) : Type :=
  | Int (z : Z)
  | Hex (h : H).
Arguments Int {H} z.
Arguments Hex {H} h.

(** [if isinstance(x, HexString): x = x.as_int] *)
Definition to_int {H} `{HexStringLike H} (x : operand H) : Z :=
  match x with
  | Int z => z
  | Hex h => as_int h
  end.

(** Values that [get] can hand back: the mapped integer or the caller's
    default, which is [None] when it is not given. *)
Inductive pyobj : Type :=
  | PyNone
  | PyInt (z : Z)
  | PyStr (s : string).

Inductive exn : Type :=
  | KeyError (item : Z).

(** *** class Range *)

Record Range : Type := mkRange { begin : Z; end_ : Z }.

(** *** class MapRange(Range) *)

Record MapRange : Type := mkMapRange { super : Range; map_to_start : Z }.

(** The subclass relation: what is a [Range] for the inherited methods. *)
Class RangeLike (R : Type) := as_range : R -> Range.
#[export] Instance Range_RangeLike : RangeLike Range := fun r => r.
#[export] Instance MapRange_RangeLike : RangeLike MapRange := super.

(** *** class CodespaceRanges and class MappedCodespaceRanges(CodespaceRanges)

    Both hold one attribute, the list [ranges]; the members are [Range]
    objects in the first and [MapRange] objects in the second. *)
Record Codespace (R : Type) : Type := mkCodespace { ranges : list R }.
Arguments mkCodespace {R} ranges.
Arguments ranges {R} c.

Abbreviation CodespaceRanges := (Codespace Range).
Abbreviation MappedCodespaceRanges := (Codespace MapRange).

Section Methods.
Context {H : Type} `{HexStringLike H}.

(** [Range.__init__] *)
Definition Range_init (begin end_ : operand H) : Range :=
  mkRange (to_int begin) (to_int end_).

(** [Range.__contains__]: [self.begin <= item <= self.end] *)
Definition Range_contains {R} `{RangeLike R} (self : R) (item : operand H) : bool :=
  let item := to_int item in
  (begin (as_range self) <=? item) && (item <=? end_ (as_range self)).

(** [Range.__len__] *)
Definition Range_len {R} `{RangeLike R} (self : R) : Z :=
  end_ (as_range self) - begin (as_range self) + 1.

(** [MapRange.__init__] *)
Definition MapRange_init (begin end_ map_to_start : operand H) : MapRange :=
  mkMapRange (Range_init begin end_) (to_int map_to_start).

(** [MapRange.__getitem__].  The method computes [item - self.begin] on
    the item itself, so its keys are the integers. *)
Definition MapRange_getitem (self : MapRange) (item : Z) : result exn Z :=
  if negb (Range_contains self (Int item)) then Raise (KeyError item)
  else Ok (map_to_start self + (item - begin (super self))).

(** [MapRange.get] *)
Definition MapRange_get (self : MapRange) (item : Z) (default : pyobj) : pyobj :=
  match MapRange_getitem self item with
  | Ok res => PyInt res
  | Raise (KeyError _) => default
  end.

(** [CodespaceRanges.__init__] and [CodespaceRanges.add] *)
Definition CodespaceRanges_add (self : CodespaceRanges) (begin end_ : operand H)
  : CodespaceRanges :=
  mkCodespace (ranges self ++ [Range_init begin end_]).

Definition CodespaceRanges_init (begin end_ : option (operand H)) : CodespaceRanges :=
  let self := mkCodespace [] in
  match begin, end_ with
  | Some b, Some e => CodespaceRanges_add self b e
  | _, _ => self
  end.

(** [CodespaceRanges.__contains__]: [any(item in r for r in self.ranges)] *)
Definition CodespaceRanges_contains {R} `{RangeLike R}
    (self : Codespace R) (item : operand H) : bool :=
  let item := Int (to_int item) in
  existsb (fun r => Range_contains r item) (ranges self).

(** [CodespaceRanges.as_list]: the members' integers as a set, sorted. *)
Definition CodespaceRanges_as_list {R} `{RangeLike R} (self : Codespace R) : list Z :=
  let res :=
    fold_left
      (fun res r =>
         let b := begin (as_range r) in
         let e := end_ (as_range r) in
         res ++ seqZ b (e + 1 - b))
      (ranges self) [] in
  merge_sort Z.le (remove_dups res).

(** [CodespaceRanges.__len__] *)
Definition CodespaceRanges_len {R} `{RangeLike R} (self : Codespace R) : Z :=
  Z.of_nat (length (CodespaceRanges_as_list self)).

(** [CodespaceRanges.merge]: [self.ranges.extend(other.ranges)]; the
    result is the state of [self] after the call. *)
Definition CodespaceRanges_merge {R} (self other : Codespace R) : Codespace R :=
  mkCodespace (ranges self ++ ranges other).

(** [MappedCodespaceRanges.add] and [MappedCodespaceRanges.__init__] *)
Definition MappedCodespaceRanges_add (self : MappedCodespaceRanges)
    (begin end_ map_to_start : operand H) : MappedCodespaceRanges :=
  mkCodespace (ranges self ++ [MapRange_init begin end_ map_to_start]).

Definition MappedCodespaceRanges_init
    (begin end_ map_to_start : option (operand H)) : MappedCodespaceRanges :=
  let self := mkCodespace [] in
  match begin, end_, map_to_start with
  | Some b, Some e, Some m => MappedCodespaceRanges_add self b e m
  | _, _, _ => self
  end.

(** [MappedCodespaceRanges.__getitem__]:
    [for r in self.ranges: if item in r: return r[item]] and then
    [raise KeyError(item)]. *)
Fixpoint getitem_loop (rs : list MapRange) (item : Z) : result exn Z :=
  match rs with
  | [] => Raise (KeyError item)
  | r :: rs =>
      if Range_contains r (Int item) then MapRange_getitem r item
      else getitem_loop rs item
  end.

Definition MappedCodespaceRanges_getitem (self : MappedCodespaceRanges) (item : Z)
  : result exn Z :=
  getitem_loop (ranges self) item.

(** [MappedCodespaceRanges.get] *)
Definition MappedCodespaceRanges_get (self : MappedCodespaceRanges) (item : Z)
    (default : pyobj) : pyobj :=
  match MappedCodespaceRanges_getitem self item with
  | Ok res => PyInt res
  | Raise (KeyError _) => default
  end.

(** [MappedCodespaceRanges.as_dict]: [{item: self[item] for item in self.as_list}];
    a key whose lookup raises ends the comprehension with that exception. *)
Fixpoint as_dict_loop (self : MappedCodespaceRanges) (items : list Z)
  : result exn (list (Z * Z)) :=
  match items with
  | [] => Ok []
  | item :: items =>
      match MappedCodespaceRanges_getitem self item with
      | Raise e => Raise e
      | Ok v =>
          match as_dict_loop self items with
          | Raise e => Raise e
          | Ok d => Ok ((item, v) :: d)
          end
      end
  end.

Definition MappedCodespaceRanges_as_dict (self : MappedCodespaceRanges)
  : result exn (list (Z * Z)) :=
  as_dict_loop self (CodespaceRanges_as_list self).

End Methods.

(** The doctests write their HexString literals as strings of hexadecimal
    digits; this instance reads them in base 16. *)
Definition doctest_HexString : HexStringLike string :=
  {| as_int := fun s => Z.of_N (HexString.Raw.to_N s 0%N) |}.


(** ** class CMapParser(BasicTypesParser): the section parsers

    [BasicTypesParser] is outside this module; the section parsers use the
    operations below.  An operation that raises does so with
    ParserException. *)

Inductive parse_error : Type :=
  | ParserException.

Class CursorParser (C H : Type) : Type := {
  current : C -> option Ascii.ascii;
  maybe_spaces_or_comments : C -> C;
  hexstring : C -> result parse_error H * C;
  non_negative_int : C -> result parse_error Z * C;
  expected_token : string -> C -> result parse_error unit * C
}.

(** A call of a section parser: the cursor is passed along, and [None] is a
    loop that has not ended within its fuel. *)
Definition Parse (C A : Type) : Type := C -> option (result parse_error A * C).

Definition parse_bind {C A B} (m : Parse C A) (k : A -> Parse C B) : Parse C B :=
  fun c =>
    match m c with
    | None => None
    | Some (Raise e, c) => Some (Raise e, c)
    | Some (Ok a, c) => k a c
    end.

Definition parse_ret {C A} (a : A) : Parse C A := fun c => Some (Ok a, c).

Definition parse_op {C A} (op : C -> result parse_error A * C) : Parse C A :=
  fun c => Some (op c).

Definition parse_skip {C} (op : C -> C) : Parse C unit :=
  fun c => Some (Ok tt, op c).

Section SectionParsers.
Context {C H : Type} `{HexStringLike H} `{CursorParser C H}.

(** [self.current == "<"] *)
Definition at_hexstring (c : C) : bool :=
  match current c with
  | Some ch => Ascii.eqb ch "<"%char
  | None => false
  end.

(** The loop of [codespacerange], lines 331-336. *)
Fixpoint codespacerange_loop (fuel : nat) (res : CodespaceRanges) : Parse C CodespaceRanges :=
  fun c =>
    if at_hexstring c then
      match fuel with
      | O => None
      | S fuel =>
          parse_bind (parse_op hexstring) (fun cr_from =>
          parse_bind (parse_skip maybe_spaces_or_comments) (fun _ =>
          parse_bind (parse_op hexstring) (fun cr_to =>
          parse_bind (parse_skip maybe_spaces_or_comments) (fun _ =>
          codespacerange_loop fuel (CodespaceRanges_add res (Hex cr_from) (Hex cr_to))))))
            c
      end
    else Some (Ok res, c).

(** [codespacerange], lines 327-338. *)
Definition codespacerange (fuel : nat) : Parse C CodespaceRanges :=
  parse_bind (parse_op (expected_token "begincodespacerange")) (fun _ =>
  parse_bind (parse_skip maybe_spaces_or_comments) (fun _ =>
  parse_bind (codespacerange_loop fuel (CodespaceRanges_init None None)) (fun res =>
  parse_bind (parse_op (expected_token "endcodespacerange")) (fun _ =>
  parse_ret res)))).

(** The loop of [mapped_codespacerange], lines 344-351. *)
Fixpoint mapped_codespacerange_loop (fuel : nat) (res : MappedCodespaceRanges)
  : Parse C MappedCodespaceRanges :=
  fun c =>
    if at_hexstring c then
      match fuel with
      | O => None
      | S fuel =>
          parse_bind (parse_op hexstring) (fun cr_from =>
          parse_bind (parse_skip maybe_spaces_or_comments) (fun _ =>
          parse_bind (parse_op hexstring) (fun cr_to =>
          parse_bind (parse_skip maybe_spaces_or_comments) (fun _ =>
          parse_bind (parse_op non_negative_int) (fun cid_from =>
          parse_bind (parse_skip maybe_spaces_or_comments) (fun _ =>
          mapped_codespacerange_loop fuel
            (MappedCodespaceRanges_add res (Hex cr_from) (Hex cr_to) (Int cid_from))))))))
            c
      end
    else Some (Ok res, c).

(** [mapped_codespacerange], lines 340-353;
    ["begin{}range".format(rangename)] is the concatenation. *)
Definition mapped_codespacerange (fuel : nat) (rangename : string)
  : Parse C MappedCodespaceRanges :=
  parse_bind (parse_op (expected_token ("begin" ++ rangename ++ "range"))) (fun _ =>
  parse_bind (parse_skip maybe_spaces_or_comments) (fun _ =>
  parse_bind (mapped_codespacerange_loop fuel (MappedCodespaceRanges_init None None None))
    (fun res =>
  parse_bind (parse_op (expected_token ("end" ++ rangename ++ "range"))) (fun _ =>
  parse_ret res)))).

(** The loop of [mapped_char], lines 359-364. *)
Fixpoint mapped_char_loop (fuel : nat) (res : MappedCodespaceRanges)
  : Parse C MappedCodespaceRanges :=
  fun c =>
    if at_hexstring c then
      match fuel with
      | O => None
      | S fuel =>
          parse_bind (parse_op hexstring) (fun src_code =>
          parse_bind (parse_skip maybe_spaces_or_comments) (fun _ =>
          parse_bind (parse_op hexstring) (fun dst_code =>
          parse_bind (parse_skip maybe_spaces_or_comments) (fun _ =>
          mapped_char_loop fuel
            (MappedCodespaceRanges_add res (Hex src_code) (Hex src_code) (Hex dst_code))))))
            c
      end
    else Some (Ok res, c).

(** [mapped_char], lines 355-366. *)
Definition mapped_char (fuel : nat) (rangename : string) : Parse C MappedCodespaceRanges :=
  parse_bind (parse_op (expected_token ("begin" ++ rangename ++ "char"))) (fun _ =>
  parse_bind (parse_skip maybe_spaces_or_comments) (fun _ =>
  parse_bind (mapped_char_loop fuel (MappedCodespaceRanges_init None None None)) (fun res =>
  parse_bind (parse_op (expected_token ("end" ++ rangename ++ "char"))) (fun _ =>
  parse_ret res)))).

End SectionParsers.

(** A sample cursor: the input already split into its hex strings, integers
    and bare words. *)
Inductive sample_token : Type :=
  | THex (digits : string)
  | TInt (z : Z)
  | TWord (w : string).

Definition sample_cursor : CursorParser (list sample_token) string :=
  {| current := fun c =>
       match c with
       | THex _ :: _ => Some "<"%char
       | TInt _ :: _ => Some "0"%char
       | TWord w :: _ => match w with String ch _ => Some ch | EmptyString => None end
       | [] => None
       end;
     maybe_spaces_or_comments := fun c => c;
     hexstring := fun c =>
       match c with
       | THex h :: c' => (Ok h, c')
       | _ => (Raise ParserException, c)
       end;
     non_negative_int := fun c =>
       match c with
       | TInt z :: c' => if 0 <=? z then (Ok z, c') else (Raise ParserException, c)
       | _ => (Raise ParserException, c)
       end;
     expected_token := fun name c =>
       match c with
       | TWord w :: c' => if String.eqb w name then (Ok tt, c') else (Raise ParserException, c)
       | _ => (Raise ParserException, c)
       end |}.

End cmap.

(* ===================================================================== *)
(** * document.py *)
(* ===================================================================== *)

Module document.

Inductive exn : Type :=
  | KeyError (num gen : Z)
  | ValueError (msg : string)
  | IndexError
  | ParserException
  | NoSuchObject (addr : nat).

(** ** The Value Model (types.py) *)

Record IndirectReference : Type := mkIndirectReference { num : Z; gen : Z }.

#[export] Instance IndirectReference_eq_dec : EqDecision IndirectReference.
Proof. solve_decision. Defined.

(** Modelled from the spec: types.py is not under src/.  Section 3 of the
    specification lists the kinds of value; they are kept apart here as the
    [isinstance] tests of [build] keep them apart.  A [Stream] is the one
    kind that [build] assigns to ([obj.dictionary = ...]), so a stream value
    is the address of a Stream object in the document's object store. *)
#[warnings="-register-all"] Inductive value : Type :=
  | null
  | Boolean (b : bool)
  | Integer (z : Z)
  | Name (s : string)
  | String_ (s : string)
  | Array (items : list value)
  | Dictionary (items : list (string * value))
  | StreamAt (addr : nat)
  | Reference (ref : IndirectReference)
  | IndirectObject (num gen : Z) (val : value).

Record Stream : Type := mkStream {
  dictionary : list (string * value);
  stream : list Byte.byte
}.

(** ** The Object Registry (registry.py) *)

Abbreviation Registry := (gmap (Z * Z) value).

(** Modelled from the spec: registry.py is not under src/.  Section 4.2:
    [register(indirect_object)] stores the object under its (number,
    generation) key; section 3: an entry, once set, is never overwritten by
    a different value, and the stored entry is the resolved value. *)
Definition Registry_register (self : Registry) (num gen : Z) (val : value) : Registry :=
  match self !! (num, gen) with
  | Some _ => self
  | None => <[(num, gen) := val]> self
  end.

(** Modelled from the spec: section 4.2, [is_registered(number, generation) -> bool]. *)
Definition Registry_is_registered (self : Registry) (num gen : Z) : bool :=
  match self !! (num, gen) with
  | Some _ => true
  | None => false
  end.

(** Modelled from the spec: section 4.2, [get(number, generation) -> value],
    failing with a Lookup error if absent. *)
Definition Registry_get (self : Registry) (num gen : Z) : result exn value :=
  match self !! (num, gen) with
  | Some v => Ok v
  | None => Raise (KeyError num gen)
  end.

(** ** Index sections and the trailer (parsers) *)

(** Modelled from the spec: the XRef entry of section 3, with the attributes
    that [locate_object] reads. *)
Record XRefEntry : Type := mkXRefEntry { offset : Z; generation : Z }.

(** The entry of a compressed object; its attribute [generation] is
    [c_generation] here. *)
Record CompressedEntry : Type := mkCompressedEntry {
  number : Z;
  index : Z;
  c_generation : Z
}.

Record XRef : Type := mkXRef {
  in_use : gmap Z XRefEntry;
  compressed : gmap Z CompressedEntry
}.

Record Trailer : Type := mkTrailer { xrefs : list XRef; root : IndirectReference }.

(** ** class PDFDocument

    The attributes of [__init__] that the methods use, and the store of the
    Stream objects.  [P] is the state of the cursor parser.  The parser's
    [get_state] and [set_state] are modelled from the spec (section 4.1: an
    opaque position snapshot, restorable exactly): a snapshot is such a
    state and [set_state] reinstates it. *)
Record PDFDocument (P : Type) : Type := mkPDFDocument {
  registry : Registry;
  parser : P;
  trailer : Trailer;
  brute_force_state : P;
  streams : gmap nat Stream
}.
Arguments mkPDFDocument {P}.
Arguments registry {P} _.
Arguments parser {P} _.
Arguments trailer {P} _.
Arguments brute_force_state {P} _.
Arguments streams {P} _.

(** What one value-producing operation of the parser does: the indirect
    objects it hands to [registry.register], in order; where it leaves the
    cursor; the Stream objects it has created; and the parsed value, or
    [None] when it fails with ParserException (section 4.1: it returns a
    value or fails with a Parse error). *)
Record ParseOutcome (P : Type) : Type := mkParseOutcome {
  po_registered : list (Z * Z * value);
  po_parser : P;
  po_streams : gmap nat Stream;
  po_result : option value
}.
Arguments mkParseOutcome {P}.
Arguments po_registered {P} _.
Arguments po_parser {P} _.
Arguments po_streams {P} _.
Arguments po_result {P} _.

(** The collaborators that document.py imports: the operations of
    [RegistryPDFParser] that it calls and the domain object factory. *)
Class Collaborators (P : Type) : Type := {
  parser_reset : Z -> P -> P;
  parser_indirect_object : P -> Registry -> gmap nat Stream -> ParseOutcome P;
  parser_maybe_spaces_or_comments : P -> P;
  parser_body_element : P -> Registry -> gmap nat Stream -> ParseOutcome P;
  obj_factory : PDFDocument P -> value -> value
}.

(** ** A call on the document: state passing, exceptions, and [None] for a
       run that does not return within its fuel *)

Definition M (S A : Type) : Type := S -> option (result exn A * S).

Definition ret {S A} (a : A) : M S A := fun s => Some (Ok a, s).
Definition raise {S A} (e : exn) : M S A := fun s => Some (Raise e, s).
Definition diverge {S A} : M S A := fun _ => None.
Definition bind {S A B} (m : M S A) (k : A -> M S B) : M S B :=
  fun s =>
    match m s with
    | None => None
    | Some (Raise e, s') => Some (Raise e, s')
    | Some (Ok a, s') => k a s'
    end.

Declare Scope doc_scope.
Delimit Scope doc_scope with doc.
Notation "x <- m ;; k" := (bind m (fun x => k))
  (at level 100, m at next level, right associativity) : doc_scope.
Notation "m ;;; k" := (bind m (fun _ => k))
  (at level 100, right associativity) : doc_scope.
Local Open Scope doc_scope.

Section Engine.
Context {P : Type} `{Collaborators P}.

Abbreviation Doc := (PDFDocument P).

Definition set_registry (doc : Doc) (r : Registry) : Doc :=
  mkPDFDocument r (parser doc) (trailer doc) (brute_force_state doc) (streams doc).

(** The document after a parser operation. *)
Definition absorb (doc : Doc) (o : ParseOutcome P) : Doc :=
  mkPDFDocument
    (fold_left (fun r '(n, g, v) => Registry_register r n g v) (po_registered o)
       (registry doc))
    (po_parser o) (trailer doc) (brute_force_state doc) (po_streams o).

Definition is_registered (num gen : Z) : M Doc bool :=
  fun doc => Some (Ok (Registry_is_registered (registry doc) num gen), doc).

(** Lines 95-99:
    [try: self.parser.reset(xre.offset); self.parser.indirect_object()]
    [except ParserException: pass] *)
Definition parse_at (offset : Z) : M Doc unit :=
  fun doc =>
    let p := parser_reset offset (parser doc) in
    let o := parser_indirect_object p (registry doc) (streams doc) in
    Some (Ok tt, absorb doc o).

(** Lines 91-108, the loop over [self.trailer.xrefs]; [locate] is the
    recursive call of line 106. *)
Fixpoint xref_loop (locate : Z -> Z -> M Doc value) (num gen : Z) (xrefs : list XRef)
  : M Doc unit :=
  match xrefs with
  | [] => ret tt
  | xref :: xrefs =>
      found <- match in_use xref !! num with
               | Some xre =>
                   if generation xre =? gen
                   then parse_at (offset xre) ;;; is_registered num gen
                   else ret false
               | None => ret false
               end ;;
      if (found : bool) then ret tt
      else
        found <- match compressed xref !! num with
                 | Some xre =>
                     if c_generation xre =? gen
                     then locate (number xre) (c_generation xre) ;;;
                          is_registered num gen
                     else ret false
                 | None => ret false
                 end ;;
        if (found : bool) then ret tt
        else xref_loop locate num gen xrefs
  end.

(** [next_brute_force_object], lines 135-140.  When [body_element] raises,
    the assignment to [self.brute_force_state] is not reached. *)
Definition next_brute_force_object : M Doc value :=
  fun doc =>
    let p := brute_force_state doc in
    let p := parser_maybe_spaces_or_comments p in
    let o := parser_body_element p (registry doc) (streams doc) in
    let doc := absorb doc o in
    match po_result o with
    | None => Some (Raise ParserException, doc)
    | Some obj =>
        Some (Ok obj,
              mkPDFDocument (registry doc) (parser doc) (trailer doc) (parser doc)
                (streams doc))
    end.

(** Lines 110-117, the brute-force loop; one unit of fuel per iteration. *)
Fixpoint brute_force_loop (fuel : nat) (num gen : Z) : M Doc unit :=
  fun doc =>
    if Registry_is_registered (registry doc) num gen then Some (Ok tt, doc)
    else
      match fuel with
      | O => None
      | S fuel =>
          match next_brute_force_object doc with
          | None => None
          | Some (Ok _, doc) => brute_force_loop fuel num gen doc
          | Some (Raise ParserException, doc) =>
              Some (Ok tt, set_registry doc (Registry_register (registry doc) num gen null))
          | Some (Raise e, doc) => Some (Raise e, doc)
          end
      end.

(** [locate_object], lines 83-119; one unit of fuel per nested call. *)
Fixpoint locate_object (fuel : nat) (num gen : Z) : M Doc value :=
  match fuel with
  | O => diverge
  | S fuel =>
      fun doc =>
        (xref_loop (locate_object fuel) num gen (xrefs (trailer doc)) ;;;
         brute_force_loop fuel num gen ;;;
         fun doc => Some (Registry_get (registry doc) num gen, doc)) doc
  end.

(** [obj_by_ref], lines 121-123; [objref] is used through [objref.num] and
    [objref.gen] only. *)
Definition obj_by_ref (fuel : nat) (num gen : Z) : M Doc value :=
  obj <- locate_object fuel num gen ;;
  fun doc => Some (Ok (obj_factory doc obj), doc).

(** [deep_obj_by_ref], lines 125-133.  [counter] is true while it is not
    zero; [fuel] bounds the iterations of the loop and [rfuel] is the fuel
    of each resolution. *)
Fixpoint deep_loop (fuel rfuel : nat) (obj : value) (counter : Z) : M Doc value :=
  match obj with
  | IndirectObject n g _ =>
      if counter =? 0 then ret obj
      else
        match fuel with
        | O => diverge
        | S fuel =>
            obj <- obj_by_ref rfuel n g ;;
            deep_loop fuel rfuel obj (counter - 1)
        end
  | _ => ret obj
  end.

Definition deep_obj_by_ref (fuel rfuel : nat) (obj : value) (maxdepth : Z) : M Doc value :=
  obj <- deep_loop fuel rfuel obj maxdepth ;;
  match obj with
  | IndirectObject _ _ _ => raise (ValueError "Max reference depth exceeded")
  | _ => ret obj
  end.

(** ** [build], lines 48-81

    [visited] is one list object shared by the whole recursion, so a call
    runs on the pair of that list and the document. *)

Abbreviation Frame := (list IndirectReference * Doc)%type.

Definition on_doc {A} (m : M Doc A) : M Frame A :=
  fun '(visited, doc) =>
    match m doc with
    | None => None
    | Some (r, doc) => Some (r, (visited, doc))
    end.

(** [obj in visited] *)
Definition visited_contains (r : IndirectReference) : M Frame bool :=
  fun '(visited, doc) => Some (Ok (bool_decide (r ∈ visited)), (visited, doc)).

(** [visited.append(obj)] *)
Definition visited_append (r : IndirectReference) : M Frame unit :=
  fun '(visited, doc) => Some (Ok tt, (visited ++ [r], doc)).

(** [visited.pop()] *)
Definition visited_pop : M Frame unit :=
  fun '(visited, doc) =>
    match visited with
    | [] => Some (Raise IndexError, (visited, doc))
    | _ :: _ => Some (Ok tt, (removelast visited, doc))
    end.

(** [obj.dictionary] and [obj.dictionary = d] on the Stream object at [a]. *)
Definition get_dictionary (a : nat) : M Doc (list (string * value)) :=
  fun doc =>
    match streams doc !! a with
    | Some s => Some (Ok (dictionary s), doc)
    | None => Some (Raise (NoSuchObject a), doc)
    end.

Definition set_dictionary (a : nat) (d : list (string * value)) : M Doc unit :=
  fun doc =>
    match streams doc !! a with
    | Some s =>
        Some (Ok tt,
              mkPDFDocument (registry doc) (parser doc) (trailer doc)
                (brute_force_state doc) (<[a := mkStream d (stream s)]> (streams doc)))
    | None => Some (Raise (NoSuchObject a), doc)
    end.

(** [obj_factory(self, obj)] *)
Definition factory (obj : value) : M Doc value :=
  fun doc => Some (Ok (obj_factory doc obj), doc).

(** A list or dict comprehension: the elements are evaluated in order. *)
Fixpoint comprehension {S A B} (f : A -> M S B) (l : list A) : M S (list B) :=
  match l with
  | [] => ret []
  | x :: l =>
      y <- f x ;;
      ys <- comprehension f l ;;
      ret (y :: ys)
  end.

(** Lines 56-61.  The second component is [on_return]: whether
    [visited.pop] has been set aside for the return. *)
Definition enter (rfuel : nat) (obj : value) : M Frame (value * bool) :=
  match obj with
  | Reference r =>
      seen <- visited_contains r ;;
      if (seen : bool) then ret (obj, false)
      else
        visited_append r ;;;
        obj <- on_doc (obj_by_ref rfuel (num r) (gen r)) ;;
        ret (obj, true)
  | _ => ret (obj, false)
  end.

(** Lines 63-77; [build] is the recursive call with the same [visited]
    and [lazy].  The list and the dict that the comprehensions create are
    values of the Array and Dictionary kinds. *)
Definition build_body (build : value -> M Frame value) (obj : value) (lazy : bool)
  : M Frame value :=
  match obj with
  | Array items =>
      items <- comprehension build items ;;
      ret (Array items)
  | Dictionary items =>
      items <- (if negb lazy
                then comprehension (fun '(k, o) => o <- build o ;; ret (k, o)) items
                else ret items) ;;
      on_doc (factory (Dictionary items))
  | StreamAt a =>
      (if negb lazy
       then
         d <- on_doc (get_dictionary a) ;;
         d <- comprehension (fun '(k, o) => o <- build o ;; ret (k, o)) d ;;
         on_doc (set_dictionary a d)
       else ret tt) ;;;
      on_doc (factory (StreamAt a))
  | IndirectObject _ _ val => build val
  | _ => ret obj
  end.

(** Lines 79-81 *)
Definition leave (on_return : bool) (obj : value) : M Frame value :=
  (if on_return then visited_pop else ret tt) ;;;
  ret obj.

(** [build]; one unit of [fuel] per nested call, [rfuel] is the fuel of
    each resolution.  The result carries the list [visited] as the call
    leaves it. *)
Fixpoint build (fuel rfuel : nat) (obj : value) (visited : option (list IndirectReference))
    (lazy : bool) (doc : Doc) : option (result exn value * Frame) :=
  match fuel with
  | O => None
  | S fuel =>
      let visited := match visited with None => [] | Some visited => visited end in
      (entered <- enter rfuel obj ;;
       let '(obj, on_return) := entered in
       obj <- build_body
                (fun o '(visited, doc) => build fuel rfuel o (Some visited) lazy doc)
                obj lazy ;;
       leave on_return obj) (visited, doc)
  end.

End Engine.

(** ** Vocabulary of the statements *)

(** The values that [build_body] hands to its recursive call. *)
Definition children (lazy : bool) (obj : value) : list value :=
  match obj with
  | Array items => items
  | Dictionary items => if lazy then [] else map snd items
  | IndirectObject _ _ val => [val]
  | _ => []
  end.

(** No Stream object occurs in the value. *)
Fixpoint stream_free (obj : value) : bool :=
  match obj with
  | Array items => forallb stream_free items
  | Dictionary items => forallb (fun kv => match kv with (_, o) => stream_free o end) items
  | StreamAt _ => false
  | IndirectObject _ _ val => stream_free val
  | _ => true
  end.

(** What [build] can traverse without assigning to a Stream object: any
    value when [lazy], a value without Stream objects otherwise. *)
Definition assignment_free (lazy : bool) (obj : value) : bool :=
  lazy || stream_free obj.

Section SourceVocabulary.
Context {P : Type} `{Collaborators P}.

(** The pair (num, gen) exists nowhere in the byte source: no operation of
    the parser ever registers an object under it. *)
Definition never_parsed (num gen : Z) : Prop :=
  forall (p : P) (reg : Registry) (h : gmap nat Stream) (v : value),
    ((num, gen, v) ∉ po_registered (parser_indirect_object p reg h))
    /\ ((num, gen, v) ∉ po_registered (parser_body_element p reg h)).

(** No index section places the object in a container. *)
Definition not_compressed (num gen : Z) (xs : list XRef) : bool :=
  forallb
    (fun xref =>
       match compressed xref !! num with
       | Some xre => negb (c_generation xre =? gen)
       | None => true
       end) xs.

(** The byte source is finite: a body element that parses leaves strictly
    less of it after the cursor. *)
Definition advances (remaining : P -> nat) : Prop :=
  forall (p : P) (reg : Registry) (h : gmap nat Stream) (v : value),
    let o := parser_body_element (parser_maybe_spaces_or_comments p) reg h in
    po_result o = Some v -> (remaining (po_parser o) < remaining p)%nat.

End SourceVocabulary.

(** ** Sample documents *)

(** A parser over a source with nothing left to read, and the factory that
    hands every value back as it is (the generic variant). *)
Definition empty_source : Collaborators unit :=
  {| parser_reset := fun _ p => p;
     parser_indirect_object := fun p _ h => mkParseOutcome [] p h None;
     parser_maybe_spaces_or_comments := fun p => p;
     parser_body_element := fun p _ h => mkParseOutcome [] p h None;
     obj_factory := fun _ v => v |}.

Definition ref (num gen : Z) : value := Reference (mkIndirectReference num gen).

(** Object 1 is a dictionary that refers to itself. *)
Definition cycle_doc : PDFDocument unit :=
  mkPDFDocument
    {[ (1, 0) := Dictionary [("Self"%string, ref 1 0)] ]}
    tt (mkTrailer [] (mkIndirectReference 1 0)) tt ∅.

(** A Stream object whose dictionary refers to object 5, the integer 42. *)
Definition stream_doc : PDFDocument unit :=
  mkPDFDocument
    {[ (5, 0) := Integer 42 ]}
    tt (mkTrailer [] (mkIndirectReference 1 0)) tt
    {[ 0%nat := mkStream [("Length"%string, ref 5 0)] [Byte.x68; Byte.x69] ]}.

(** Objects 1 to [n] each hold a reference to the next one; object [n + 1]
    is an integer. *)
Definition chain_registry (n : nat) : Registry :=
  fold_right
    (fun i reg => (<[(Z.of_nat i, 0) := ref (Z.of_nat i + 1) 0]> reg))
    {[ (Z.of_nat n + 1, 0) := Integer 7 ]}
    (seq 1 n).

Definition chain_doc (n : nat) : PDFDocument unit :=
  mkPDFDocument (chain_registry n) tt (mkTrailer [] (mkIndirectReference 1 0)) tt ∅.

(** Objects 1 and 2 are Stream objects whose dictionaries refer to each
    other through references. *)
Definition stream_pair_doc : PDFDocument unit :=
  mkPDFDocument
    {[ (1, 0) := StreamAt 0; (2, 0) := StreamAt 1 ]}
    tt (mkTrailer [] (mkIndirectReference 1 0)) tt
    {[ 0%nat := mkStream [("X"%string, ref 2 0)] [];
       1%nat := mkStream [("Y"%string, ref 1 0)] [] ]}.

(** The same two objects once their dictionaries hold each other directly. *)
Definition stream_knot_doc : PDFDocument unit :=
  mkPDFDocument
    {[ (1, 0) := StreamAt 0; (2, 0) := StreamAt 1 ]}
    tt (mkTrailer [] (mkIndirectReference 1 0)) tt
    {[ 0%nat := mkStream [("X"%string, StreamAt 1)] [];
       1%nat := mkStream [("Y"%string, StreamAt 0)] [] ]}.

(** A document with nothing registered and one index entry that points
    object 7 at offset 120. *)
Definition blank_doc : PDFDocument unit :=
  mkPDFDocument ∅ tt
    (mkTrailer [mkXRef {[ 7 := mkXRefEntry 120 0 ]} ∅] (mkIndirectReference 1 0)) tt ∅.

(** A parser over a source that is a list of indirect objects: an offset
    is an index in the list, the cursor is the list with the index of the
    next object to read.  An object that is read is registered and the
    cursor moves past it; past the end of the list every read fails.  The
    factory hands every value back as it is. *)
Definition listed_read (p : list (Z * Z * value) * nat) (h : gmap nat Stream)
  : ParseOutcome (list (Z * Z * value) * nat) :=
  match fst p !! snd p with
  | Some (n, g, v) =>
      mkParseOutcome [(n, g, IndirectObject n g v)] (fst p, S (snd p)) h
        (Some (IndirectObject n g v))
  | None => mkParseOutcome [] p h None
  end.

Definition listed_source : Collaborators (list (Z * Z * value) * nat) :=
  {| parser_reset := fun offset p => (fst p, Z.to_nat offset);
     parser_indirect_object := fun p _ h => listed_read p h;
     parser_maybe_spaces_or_comments := fun p => p;
     parser_body_element := fun p _ h => listed_read p h;
     obj_factory := fun _ v => v |}.

(** What is left of the list after the cursor. *)
Definition listed_remaining (p : list (Z * Z * value) * nat) : nat :=
  length (fst p) - snd p.

(** Three objects, no index section, and nothing read yet. *)
Definition scan_doc : PDFDocument (list (Z * Z * value) * nat) :=
  mkPDFDocument ∅
    ([(3, 0, Integer 1); (7, 0, Integer 42); (8, 0, null)], 0%nat)
    (mkTrailer [] (mkIndirectReference 1 0))
    ([(3, 0, Integer 1); (7, 0, Integer 42); (8, 0, null)], 0%nat)
    ∅.

End document.

(* ===================================================================== *)
(** * Properties of parsers/cmap.py *)
(* ===================================================================== *)

Module cmap_properties.
Import cmap.

Section RangeFacts.
Context {H : Type} `{HexStringLike H}.

Lemma Range_contains_iff {R} `{RangeLike R} (self : R) (item : operand H) :
  Range_contains self item = true <->
  begin (as_range self) <= to_int item <= end_ (as_range self).
Proof.
  unfold Range_contains. rewrite andb_true_iff, !Z.leb_le. tauto.
Qed.

Lemma Range_contains_false_iff {R} `{RangeLike R} (self : R) (item : operand H) :
  Range_contains self item = false <->
  ~ begin (as_range self) <= to_int item <= end_ (as_range self).
Proof.
  rewrite <- Range_contains_iff. destruct (Range_contains self item); split; congruence.
Qed.

(** C6.  For a range built from integers [a <= b]: [x in Range(a, b)] holds
    exactly when [a <= x <= b], and [__len__] is [b - a + 1], which is then
    at least one. *)
Theorem Range_contains_and_len (a b x : Z) :
  a <= b ->
  (Range_contains (Range_init (Int a) (Int b)) (Int x) = true <-> a <= x <= b)
  /\ Range_len (Range_init (Int a) (Int b)) = b - a + 1
  /\ 1 <= Range_len (Range_init (Int a) (Int b)).
Proof.
  intros Hab. split; [| split].
  - exact (Range_contains_iff (Range_init (Int a) (Int b)) (Int x)).
  - reflexivity.
  - unfold Range_len; simpl. unfold as_range, Range_RangeLike; simpl. lia.
Qed.

(** The same two facts for a range whose ends were given as HexStrings and
    for a HexString item: the comparison is on the [as_int] values. *)
Lemma Range_contains_operands (b e item : operand H) :
  Range_contains (Range_init b e) item = true <-> to_int b <= to_int item <= to_int e.
Proof. exact (Range_contains_iff (Range_init b e) item). Qed.

Lemma MapRange_getitem_inside (self : MapRange) (x : Z) :
  begin (super self) <= x <= end_ (super self) ->
  MapRange_getitem self x = Ok (map_to_start self + (x - begin (super self))).
Proof.
  intros Hin. unfold MapRange_getitem.
  assert (Hc : Range_contains self (Int x) = true) by (apply Range_contains_iff; exact Hin).
  rewrite Hc. reflexivity.
Qed.

Lemma MapRange_getitem_outside (self : MapRange) (x : Z) :
  ~ begin (super self) <= x <= end_ (super self) ->
  MapRange_getitem self x = Raise (KeyError x).
Proof.
  intros Hout. unfold MapRange_getitem.
  assert (Hc : Range_contains self (Int x) = false)
    by (apply Range_contains_false_iff; exact Hout).
  rewrite Hc. reflexivity.
Qed.

(** C7.  [MapRange(begin, end, map_to_start)[x]] is
    [map_to_start + (x - begin)] when [begin <= x <= end] and raises
    [KeyError(x)] otherwise; [get(x, default)] returns the same mapped value
    in the first case and [default] in the second, and never raises. *)
Theorem MapRange_getitem_and_get (b e m : operand H) (x : Z) (default : pyobj) :
  (to_int b <= x <= to_int e ->
     MapRange_getitem (MapRange_init b e m) x = Ok (to_int m + (x - to_int b))
     /\ MapRange_get (MapRange_init b e m) x default = PyInt (to_int m + (x - to_int b)))
  /\ (~ to_int b <= x <= to_int e ->
     MapRange_getitem (MapRange_init b e m) x = Raise (KeyError x)
     /\ MapRange_get (MapRange_init b e m) x default = default).
Proof.
  split; intros Hx.
  - assert (Hg := MapRange_getitem_inside (MapRange_init b e m) x Hx).
    unfold MapRange_get. rewrite Hg. split; reflexivity.
  - assert (Hg := MapRange_getitem_outside (MapRange_init b e m) x Hx).
    unfold MapRange_get. rewrite Hg. split; reflexivity.
Qed.

(** The loop of [MappedCodespaceRanges.__getitem__] skips the members that
    do not contain the item. *)
Lemma getitem_loop_skip (pre rest : list MapRange) (x : Z) :
  (forall r, r ∈ pre -> Range_contains r (Int x) = false) ->
  getitem_loop (pre ++ rest) x = getitem_loop rest x.
Proof.
  induction pre as [|r pre IH]; intros Hpre; simpl.
  - reflexivity.
  - rewrite (Hpre r) by (left).
    apply IH. intros r' Hr'. apply Hpre. right. exact Hr'.
Qed.

Lemma getitem_loop_none (rs : list MapRange) (x : Z) :
  (forall r, r ∈ rs -> Range_contains r (Int x) = false) ->
  getitem_loop rs x = Raise (KeyError x).
Proof.
  intros Hrs. rewrite <- (app_nil_r rs). rewrite getitem_loop_skip by exact Hrs.
  reflexivity.
Qed.

Lemma getitem_loop_find (rs : list MapRange) (x : Z) :
  getitem_loop rs x =
  match List.find (fun r => Range_contains r (Int x)) rs with
  | Some r => Ok (map_to_start r + (x - begin (super r)))
  | None => Raise (KeyError x)
  end.
Proof.
  induction rs as [|r rs IH]; simpl.
  - reflexivity.
  - destruct (Range_contains r (Int x)) eqn:Hc.
    + unfold MapRange_getitem. rewrite Hc. reflexivity.
    + exact IH.
Qed.

(** C5.  [MappedCodespaceRanges.__getitem__] returns the mapped value of the
    first member, in insertion order, that contains the key, whatever the
    later members are; it raises [KeyError] when no member contains the key;
    and for [0,10] to 100 and [5,8] to 200, added in that order, the key 6
    gives 106 and not 201. *)
Theorem MappedCodespaceRanges_getitem_first_match :
  (forall (pre post : list MapRange) (r : MapRange) (x : Z),
      (forall r', r' ∈ pre -> Range_contains r' (Int x) = false) ->
      Range_contains r (Int x) = true ->
      MappedCodespaceRanges_getitem (mkCodespace (pre ++ r :: post)) x
      = Ok (map_to_start r + (x - begin (super r))))
  /\ (forall (self : MappedCodespaceRanges) (x : Z),
      (forall r, r ∈ ranges self -> Range_contains r (Int x) = false) ->
      MappedCodespaceRanges_getitem self x = Raise (KeyError x))
  /\ (forall (self : MappedCodespaceRanges) (b e m : operand H),
      ranges (MappedCodespaceRanges_add self b e m)
      = ranges self ++ [MapRange_init b e m])
  /\ (let r := MappedCodespaceRanges_init (Some (Int 0)) (Some (Int 10)) (Some (Int 100)) in
      let r := MappedCodespaceRanges_add r (Int 5) (Int 8) (Int 200) in
      MappedCodespaceRanges_getitem r 6 = Ok 106
      /\ MappedCodespaceRanges_getitem r 6 <> Ok 201).
Proof.
  split; [| split; [| split]].
  - intros pre post r x Hpre Hr. unfold MappedCodespaceRanges_getitem; simpl.
    rewrite getitem_loop_skip by exact Hpre. simpl. rewrite Hr.
    unfold MapRange_getitem. rewrite Hr. reflexivity.
  - intros self x Hnone. apply getitem_loop_none. exact Hnone.
  - reflexivity.
  - simpl. split; [reflexivity | discriminate].
Qed.

Lemma CodespaceRanges_contains_merge {R} `{RangeLike R} (A B : Codespace R) (x : operand H) :
  CodespaceRanges_contains (CodespaceRanges_merge A B) x
  = CodespaceRanges_contains A x || CodespaceRanges_contains B x.
Proof.
  unfold CodespaceRanges_contains, CodespaceRanges_merge; simpl.
  apply existsb_app.
Qed.

(** C8.  Merging in either order gives the same membership, for plain and
    for mapped collections; [merge] appends the other collection's ranges
    after the receiver's; and for two mapped collections whose ranges overlap
    the two orders give different results of a lookup. *)
Theorem merge_order_membership_and_lookup :
  (forall R (RL : RangeLike R) (A B : Codespace R) (x : operand H),
      CodespaceRanges_contains (CodespaceRanges_merge A B) x
      = CodespaceRanges_contains (CodespaceRanges_merge B A) x)
  /\ (forall R (A B : Codespace R),
      ranges (CodespaceRanges_merge A B) = ranges A ++ ranges B)
  /\ (exists (A B : MappedCodespaceRanges) (x : Z),
      MappedCodespaceRanges_getitem (CodespaceRanges_merge A B) x
      <> MappedCodespaceRanges_getitem (CodespaceRanges_merge B A) x).
Proof.
  split; [| split].
  - intros R RL A B x. rewrite !CodespaceRanges_contains_merge. apply orb_comm.
  - reflexivity.
  - exists (MappedCodespaceRanges_init (Some (Int 0)) (Some (Int 10)) (Some (Int 100))),
           (MappedCodespaceRanges_init (Some (Int 5)) (Some (Int 8)) (Some (Int 200))),
           6.
    simpl. discriminate.
Qed.

(** Merging is associative on the list of ranges, hence on membership and
    on lookups alike. *)
Lemma CodespaceRanges_merge_assoc {R} (A B C : Codespace R) :
  CodespaceRanges_merge (CodespaceRanges_merge A B) C
  = CodespaceRanges_merge A (CodespaceRanges_merge B C).
Proof. unfold CodespaceRanges_merge; simpl. rewrite app_assoc. reflexivity. Qed.

End RangeFacts.

(** C6 at Range(0, 4), and the doctests of cmap.py. *)

Section Doctests.
Existing Instance doctest_HexString.
Local Abbreviation int := (@Int string).

Lemma Range_contains_and_len_witness :
  (Range_contains (Range_init (int 0) (int 4)) (int 2) = true <-> 0 <= 2 <= 4)
  /\ Range_len (Range_init (int 0) (int 4)) = 4 - 0 + 1
  /\ 1 <= Range_len (Range_init (int 0) (int 4)).
Proof.
  apply (Range_contains_and_len 0 4 2). lia.
Defined.

Example Range_doctests :
  Range_contains (Range_init (int 0) (int 4)) (int 2) = true
  /\ Range_contains (Range_init (int 0) (int 4)) (Hex "0a"%string) = false
  /\ Range_contains (Range_init (int 0) (int 4)) (Hex "02"%string) = true
  /\ Range_contains (Range_init (int 0) (int 4)) (int (-1)) = false
  /\ Range_contains (Range_init (int 0) (int 4)) (int 5) = false
  /\ Range_len (Range_init (int 0) (int 0)) = 1
  /\ Range_len (Range_init (int 0) (int 4)) = 5
  /\ Range_len (Range_init (int 0) (int 100)) = 101.
Proof. repeat split. Qed.

Example MapRange_doctests :
  let r := MapRange_init (int 0) (int 4) (int 5) in
  MapRange_getitem r 0 = Ok 5 /\ MapRange_getitem r 1 = Ok 6
  /\ MapRange_getitem r 4 = Ok 9 /\ MapRange_getitem r 5 = Raise (KeyError 5)
  /\ MapRange_get r 0 PyNone = PyInt 5 /\ MapRange_get r 5 PyNone = PyNone
  /\ MapRange_get r 5 (PyInt (-1)) = PyInt (-1).
Proof. repeat split. Qed.

Example CodespaceRanges_doctests :
  let cr := CodespaceRanges_init None None in
  let cr := CodespaceRanges_add cr (int 2) (int 5) in
  let cr := CodespaceRanges_add cr (Hex "FA"%string) (Hex "FF"%string) in
  CodespaceRanges_as_list cr = [2; 3; 4; 5; 250; 251; 252; 253; 254; 255]
  /\ CodespaceRanges_len cr = 10
  /\ CodespaceRanges_contains cr (int 3) = true
  /\ CodespaceRanges_contains cr (Hex "fb"%string) = true
  /\ CodespaceRanges_contains cr (Hex "2f"%string) = false
  /\ CodespaceRanges_contains cr (int 256) = false.
Proof. vm_compute. repeat split. Qed.

Example MappedCodespaceRanges_doctests :
  let r := MappedCodespaceRanges_init (Some (int 0)) (Some (int 4)) (Some (int 5)) in
  let r := MappedCodespaceRanges_add r (int 6) (int 10) (int 106) in
  MappedCodespaceRanges_getitem r 0 = Ok 5
  /\ MappedCodespaceRanges_getitem r 4 = Ok 9
  /\ MappedCodespaceRanges_getitem r 6 = Ok 106
  /\ MappedCodespaceRanges_getitem r 8 = Ok 108
  /\ MappedCodespaceRanges_getitem r 5 = Raise (KeyError 5)
  /\ MappedCodespaceRanges_getitem r 20 = Raise (KeyError 20)
  /\ MappedCodespaceRanges_get r 5 (PyInt (-1)) = PyInt (-1)
  /\ MappedCodespaceRanges_as_dict r
     = Ok [(0, 5); (1, 6); (2, 7); (3, 8); (4, 9);
           (6, 106); (7, 107); (8, 108); (9, 109); (10, 110)].
Proof. vm_compute. repeat split. Qed.

End Doctests.


(** ** Collections: membership, enumeration and size *)

Section CollectionFacts.
Context {H : Type} `{HexStringLike H}.

Lemma CodespaceRanges_contains_iff {R} `{RangeLike R} (self : Codespace R) (item : operand H) :
  CodespaceRanges_contains self item = true <->
  exists r, r ∈ ranges self /\ begin (as_range r) <= to_int item <= end_ (as_range r).
Proof.
  unfold CodespaceRanges_contains. rewrite existsb_exists. split.
  - intros (r & Hin & Hc). exists r. split; [apply list_elem_of_In; exact Hin |].
    apply Range_contains_iff in Hc. exact Hc.
  - intros (r & Hin & Hc). exists r. split; [apply list_elem_of_In; exact Hin |].
    apply Range_contains_iff. exact Hc.
Qed.

(** The integers of the member ranges, in the order of the members, as the
    loop of [as_list] collects them. *)
Definition member_codes {R} `{RangeLike R} (rs : list R) : list Z :=
  flat_map
    (fun r => seqZ (begin (as_range r)) (end_ (as_range r) + 1 - begin (as_range r))) rs.

Lemma as_list_loop {R} `{RangeLike R} (rs : list R) (acc : list Z) :
  fold_left
    (fun res r =>
       let b := begin (as_range r) in
       let e := end_ (as_range r) in
       res ++ seqZ b (e + 1 - b)) rs acc
  = acc ++ member_codes rs.
Proof.
  revert acc. induction rs as [|r rs IH]; intros acc; simpl.
  - rewrite app_nil_r. reflexivity.
  - rewrite IH. rewrite <- app_assoc. reflexivity.
Qed.

Lemma elem_of_member_codes {R} `{RangeLike R} (rs : list R) (x : Z) :
  x ∈ member_codes rs <->
  exists r, r ∈ rs /\ begin (as_range r) <= x <= end_ (as_range r).
Proof.
  unfold member_codes. rewrite list_elem_of_In, in_flat_map. split.
  - intros (r & Hin & Hx). exists r. split; [apply list_elem_of_In; exact Hin |].
    apply list_elem_of_In, elem_of_seqZ in Hx. lia.
  - intros (r & Hin & Hx). exists r. split; [apply list_elem_of_In; exact Hin |].
    apply list_elem_of_In, elem_of_seqZ. lia.
Qed.

Lemma CodespaceRanges_as_list_unfold {R} `{RangeLike R} (self : Codespace R) :
  CodespaceRanges_as_list self = merge_sort Z.le (remove_dups (member_codes (ranges self))).
Proof. unfold CodespaceRanges_as_list. rewrite as_list_loop. reflexivity. Qed.

Lemma sorted_without_repeats (l : list Z) :
  StronglySorted Z.le l -> NoDup l -> StronglySorted Z.lt l.
Proof.
  induction 1 as [|x l Hs IH Hall]; intros Hnd; [constructor |].
  apply NoDup_cons in Hnd. destruct Hnd as [Hx Hnd].
  constructor; [exact (IH Hnd) |].
  rewrite Forall_forall in *. intros y Hy.
  assert (x <> y) by (intros ->; apply Hx; exact Hy).
  specialize (Hall y Hy). lia.
Qed.

Lemma elem_of_as_list {R} `{RangeLike R} (self : Codespace R) (x : Z) :
  x ∈ CodespaceRanges_as_list self <->
  CodespaceRanges_contains self (Int x : operand H) = true.
Proof.
  rewrite CodespaceRanges_as_list_unfold.
  rewrite merge_sort_Permutation, elem_of_remove_dups, elem_of_member_codes.
  rewrite CodespaceRanges_contains_iff. reflexivity.
Qed.

(** X1.  [as_list] is strictly increasing, so it has no repeats, and its
    elements are exactly the integers that [__contains__] accepts: an
    integer that lies in several member ranges is listed once, and a member
    whose begin is above its end contributes nothing. *)
Theorem CodespaceRanges_as_list_enumerates {R} `{RangeLike R} (self : Codespace R) :
  StronglySorted Z.lt (CodespaceRanges_as_list self)
  /\ forall x : Z,
       x ∈ CodespaceRanges_as_list self <->
       CodespaceRanges_contains self (Int x : operand H) = true.
Proof.
  rewrite CodespaceRanges_as_list_unfold. split.
  - apply sorted_without_repeats.
    + apply StronglySorted_merge_sort; apply _.
    + rewrite merge_sort_Permutation. apply NoDup_remove_dups.
  - intros x. rewrite <- CodespaceRanges_as_list_unfold. apply elem_of_as_list.
Qed.

Lemma length_remove_dups_le (l : list Z) : (length (remove_dups l) <= length l)%nat.
Proof.
  induction l as [|x l IH]; simpl; [lia |].
  destruct (decide_rel elem_of x l); simpl; lia.
Qed.

Lemma length_member_codes {R} `{RangeLike R} (rs : list R) :
  Z.of_nat (length (member_codes rs))
  = fold_right Z.add 0 (map (fun r => Z.max 0 (Range_len r)) rs).
Proof.
  unfold member_codes. induction rs as [|r rs IH]; simpl; [reflexivity |].
  rewrite length_app, Nat2Z.inj_add, IH, length_seqZ. unfold Range_len. lia.
Qed.

Lemma CodespaceRanges_len_le_sum {R} `{RangeLike R} (self : Codespace R) :
  0 <= CodespaceRanges_len self
       <= fold_right Z.add 0 (map (fun r => Z.max 0 (Range_len r)) (ranges self)).
Proof.
  unfold CodespaceRanges_len.
  rewrite CodespaceRanges_as_list_unfold, merge_sort_Permutation.
  rewrite <- length_member_codes.
  assert (Hle := length_remove_dups_le (member_codes (ranges self))). lia.
Qed.

(** X2.  [len] of a collection counts the distinct integers: it is never
    negative and never more than the sum of the sizes of the members, where
    a member whose begin is above its end counts for nothing; and the
    collection made from one range with [a <= b] has the [len] of that
    range. *)
Theorem CodespaceRanges_len_bounds :
  (forall R (RL : RangeLike R) (self : Codespace R),
      0 <= CodespaceRanges_len self
           <= fold_right Z.add 0 (map (fun r => Z.max 0 (Range_len r)) (ranges self)))
  /\ (forall a b : Z,
      a <= b ->
      CodespaceRanges_len (CodespaceRanges_init (Some (Int a : operand H)) (Some (Int b)))
      = Range_len (Range_init (Int a : operand H) (Int b))).
Proof.
  split.
  - intros R RL self. apply CodespaceRanges_len_le_sum.
  - intros a b Hab. unfold CodespaceRanges_len.
    rewrite CodespaceRanges_as_list_unfold, merge_sort_Permutation.
    simpl. rewrite app_nil_r.
    assert (Hnd : remove_dups (seqZ a (b + 1 - a)) ≡ₚ seqZ a (b + 1 - a)).
    { apply NoDup_Permutation; [apply NoDup_remove_dups | apply NoDup_seqZ |].
      intros x. apply elem_of_remove_dups. }
    unfold as_range, Range_RangeLike. simpl. rewrite Hnd, length_seqZ.
    unfold Range_len, as_range, Range_RangeLike. simpl. lia.
Qed.

End CollectionFacts.


(** ** Mapped collections: lookup against membership, [get], [as_dict],
       [add] and [merge] *)

Section MappedFacts.
Context {H : Type} `{HexStringLike H}.

Lemma getitem_loop_contains (rs : list MapRange) (x : Z) :
  (existsb (fun r => Range_contains r (Int x : operand H)) rs = true ->
   exists v, getitem_loop rs x = Ok v)
  /\ (existsb (fun r => Range_contains r (Int x : operand H)) rs = false ->
      getitem_loop rs x = Raise (KeyError x)).
Proof.
  induction rs as [|r rs [IHt IHf]]; simpl.
  - split; [discriminate | reflexivity].
  - destruct (Range_contains r (Int x)) eqn:Hc; simpl.
    + split; [| discriminate]. intros _. unfold MapRange_getitem. rewrite Hc. simpl. eauto.
    + split; assumption.
Qed.

(** X3.  Lookup and membership agree on a mapped collection: [self[x]] returns a
    value exactly when [x in self], it raises nothing but [KeyError(x)], and
    [get] returns the looked-up value in the first case and the default in
    the second. *)
Theorem MappedCodespaceRanges_lookup_agrees_with_contains
    (self : MappedCodespaceRanges) (x : Z) (default : pyobj) :
  (CodespaceRanges_contains self (Int x : operand H) = true <->
   exists v, MappedCodespaceRanges_getitem self x = Ok v)
  /\ (CodespaceRanges_contains self (Int x : operand H) = false <->
      MappedCodespaceRanges_getitem self x = Raise (KeyError x))
  /\ (forall v, MappedCodespaceRanges_getitem self x = Ok v ->
                MappedCodespaceRanges_get self x default = PyInt v)
  /\ (CodespaceRanges_contains self (Int x : operand H) = false ->
      MappedCodespaceRanges_get self x default = default).
Proof.
  destruct (getitem_loop_contains (ranges self) x) as [Ht Hf].
  unfold MappedCodespaceRanges_getitem, MappedCodespaceRanges_get, CodespaceRanges_contains.
  simpl.
  destruct (existsb (fun r => Range_contains r (Int x)) (ranges self)) eqn:He.
  - destruct (Ht eq_refl) as [v Hv]. unfold MappedCodespaceRanges_getitem. rewrite Hv.
    repeat split; try discriminate; eauto.
    intros v' Hv'. injection Hv' as ->. reflexivity.
  - specialize (Hf eq_refl). unfold MappedCodespaceRanges_getitem. rewrite Hf.
    repeat split; try discriminate; try reflexivity.
    + intros [v Hv]. discriminate.
Qed.

Lemma as_dict_loop_total (self : MappedCodespaceRanges) (items : list Z) :
  (forall x, x ∈ items -> CodespaceRanges_contains self (Int x : operand H) = true) ->
  exists d,
    as_dict_loop self items = Ok d
    /\ map fst d = items
    /\ forall k v, (k, v) ∈ d -> MappedCodespaceRanges_getitem self k = Ok v.
Proof.
  induction items as [|x items IH]; intros Hitems; simpl.
  - exists []. repeat split. intros k v Hin. inversion Hin.
  - destruct (getitem_loop_contains (ranges self) x) as [Hc _].
    destruct (Hc (Hitems x (list_elem_of_here _ _))) as [v Hv].
    unfold MappedCodespaceRanges_getitem at 1. rewrite Hv.
    destruct IH as (d & Hd & Hkeys & Hvals).
    { intros y Hy. apply Hitems. right. exact Hy. }
    rewrite Hd. exists ((x, v) :: d). split; [reflexivity |]. split.
    + simpl. rewrite Hkeys. reflexivity.
    + intros k w Hin. apply elem_of_cons in Hin. destruct Hin as [Heq|Hin].
      * injection Heq as -> ->. exact Hv.
      * exact (Hvals k w Hin).
Qed.

(** X4.  [as_dict] never raises: every key that [as_list] enumerates has a
    lookup.  Its keys are the elements of [as_list], in that order, and
    each value is what [self[key]] returns. *)
Theorem MappedCodespaceRanges_as_dict_total (self : MappedCodespaceRanges) :
  exists d,
    MappedCodespaceRanges_as_dict (H := H) self = Ok d
    /\ map fst d = CodespaceRanges_as_list self
    /\ forall k v, (k, v) ∈ d -> MappedCodespaceRanges_getitem self k = Ok v.
Proof.
  unfold MappedCodespaceRanges_as_dict. apply as_dict_loop_total.
  intros x Hx. apply elem_of_as_list. exact Hx.
Qed.

Lemma getitem_loop_app (rs1 rs2 : list MapRange) (x : Z) :
  getitem_loop (H := H) (rs1 ++ rs2) x
  = match getitem_loop rs1 x with
    | Ok v => Ok v
    | Raise _ => getitem_loop rs2 x
    end.
Proof.
  induction rs1 as [|r rs1 IH]; simpl; [reflexivity |].
  destruct (Range_contains r (Int x)) eqn:Hc.
  - unfold MapRange_getitem. rewrite Hc. reflexivity.
  - exact IH.
Qed.

(** X5.  After [self.merge(other)] a lookup is answered by the ranges that
    [self] had, and by those of [other] only for the keys that [self] did
    not map: a merge never changes a mapping that was there, and a key is
    unmapped afterwards only if it was unmapped in both. *)
Theorem merge_lookup_prefers_receiver (self other : MappedCodespaceRanges) (x : Z) :
  MappedCodespaceRanges_getitem (H := H) (CodespaceRanges_merge self other) x
  = match MappedCodespaceRanges_getitem self x with
    | Ok v => Ok v
    | Raise _ => MappedCodespaceRanges_getitem other x
    end.
Proof. unfold MappedCodespaceRanges_getitem. simpl. apply getitem_loop_app. Qed.

(** X6.  [add(begin, end, map_to_start)] is a merge with the collection made of
    that one range, so it too keeps every mapping that was there: the new
    range answers only for the keys that were unmapped, and for those it
    gives [map_to_start + (x - begin)] inside [begin..end] and [KeyError]
    outside. *)
Theorem add_keeps_earlier_mappings (self : MappedCodespaceRanges)
    (b e m : operand H) (x : Z) :
  MappedCodespaceRanges_add self b e m
  = CodespaceRanges_merge self (MappedCodespaceRanges_init (Some b) (Some e) (Some m))
  /\ MappedCodespaceRanges_getitem (MappedCodespaceRanges_add self b e m) x
     = match MappedCodespaceRanges_getitem self x with
       | Ok v => Ok v
       | Raise _ =>
           if (to_int b <=? x) && (x <=? to_int e)
           then Ok (to_int m + (x - to_int b))
           else Raise (KeyError x)
       end.
Proof.
  split; [reflexivity |].
  unfold MappedCodespaceRanges_getitem, MappedCodespaceRanges_add. simpl.
  rewrite getitem_loop_app. destruct (getitem_loop (ranges self) x); [reflexivity |].
  simpl. unfold MapRange_getitem, Range_contains. simpl.
  unfold as_range, MapRange_RangeLike. simpl.
  destruct ((to_int b <=? x) && (x <=? to_int e)); reflexivity.
Qed.

(** X7.  A range whose begin is above its end is empty: it contains no integer,
    its [__len__] is zero or negative, a lookup in it raises [KeyError], and
    it adds nothing to the enumeration of a collection. *)
Theorem inverted_range_is_empty (b e m x : Z) :
  e < b ->
  Range_contains (Range_init (Int b : operand H) (Int e)) (Int x : operand H) = false
  /\ Range_len (Range_init (Int b : operand H) (Int e)) <= 0
  /\ MapRange_getitem (H := H) (MapRange_init (Int b) (Int e) (Int m)) x = Raise (KeyError x)
  /\ (forall self : CodespaceRanges,
        CodespaceRanges_as_list (CodespaceRanges_add self (Int b : operand H) (Int e))
        = CodespaceRanges_as_list self).
Proof.
  intros Hlt.
  assert (Hc : Range_contains (Range_init (Int b : operand H) (Int e)) (Int x : operand H)
               = false).
  { apply Range_contains_false_iff. unfold as_range, Range_RangeLike. simpl. lia. }
  split; [exact Hc |]. split; [| split].
  - unfold Range_len, as_range, Range_RangeLike. simpl. lia.
  - apply MapRange_getitem_outside. simpl. lia.
  - intros self. rewrite !CodespaceRanges_as_list_unfold. unfold member_codes. simpl.
    rewrite flat_map_app. simpl. unfold as_range at 3 4 5, Range_RangeLike. simpl.
    rewrite seqZ_nil by lia. rewrite !app_nil_r. reflexivity.
Qed.

End MappedFacts.


(** ** The section parsers of CMapParser *)

Section SectionParserFacts.
Context {C H : Type} `{HexStringLike H} `{CursorParser C H}.

Lemma parse_bind_inv_Ok {A B} (m : Parse C A) (k : A -> Parse C B) c b c' :
  parse_bind m k c = Some (Ok b, c') ->
  exists a c1, m c = Some (Ok a, c1) /\ k a c1 = Some (Ok b, c').
Proof.
  unfold parse_bind. destruct (m c) as [[[a|e] c1]|]; intros Hk.
  - eauto.
  - discriminate.
  - discriminate.
Qed.

(** Every range is one code wide. *)
Definition single_codes (res : MappedCodespaceRanges) : Prop :=
  forall r, r ∈ ranges res -> begin (super r) = end_ (super r).

Lemma mapped_char_loop_single_codes (fuel : nat) :
  forall res c res' c',
    single_codes res ->
    mapped_char_loop fuel res c = Some (Ok res', c') ->
    single_codes res'.
Proof.
  induction fuel as [|fuel IH]; intros res c res' c' Hres Hrun; simpl in Hrun.
  - destruct (at_hexstring c); [discriminate |]. injection Hrun as <- _. exact Hres.
  - destruct (at_hexstring c); [| injection Hrun as <- _; exact Hres].
    apply parse_bind_inv_Ok in Hrun. destruct Hrun as (src & c1 & _ & Hrun).
    apply parse_bind_inv_Ok in Hrun. destruct Hrun as (_ & c2 & _ & Hrun).
    apply parse_bind_inv_Ok in Hrun. destruct Hrun as (dst & c3 & _ & Hrun).
    apply parse_bind_inv_Ok in Hrun. destruct Hrun as (_ & c4 & _ & Hrun).
    refine (IH _ _ _ _ _ Hrun).
    intros r Hr. unfold MappedCodespaceRanges_add in Hr. simpl in Hr.
    apply elem_of_app in Hr. destruct Hr as [Hr|Hr]; [exact (Hres r Hr) |].
    apply list_elem_of_singleton in Hr. subst r. reflexivity.
Qed.

Lemma single_codes_lookup (res : MappedCodespaceRanges) (x v : Z) :
  single_codes res ->
  MappedCodespaceRanges_getitem (H := H) res x = Ok v ->
  exists r, r ∈ ranges res /\ begin (super r) = x /\ map_to_start r = v.
Proof.
  unfold MappedCodespaceRanges_getitem, single_codes.
  induction (ranges res) as [|r rs IH]; intros Hres Hget; simpl in Hget; [discriminate |].
  destruct (Range_contains r (Int x)) eqn:Hc.
  - unfold MapRange_getitem in Hget. rewrite Hc in Hget. simpl in Hget.
    injection Hget as <-.
    apply Range_contains_iff in Hc. unfold as_range, MapRange_RangeLike in Hc. simpl in Hc.
    assert (Heq := Hres r (list_elem_of_here _ _)).
    exists r. split; [left |]. split; lia.
  - destruct IH as (r' & Hr' & Hb & Hm).
    + intros r' Hr'. apply Hres. right. exact Hr'.
    + exact Hget.
    + exists r'. split; [right; exact Hr' | split; assumption].
Qed.

(** The pairs of hex strings that the loop of a char section takes from
    the cursor, in the order of the input: while the cursor is at a hex
    string, a source code, what [maybe_spaces_or_comments] skips, a
    destination code, and what it skips again.  [reads_pairs c pairs c']
    relates the cursor [c] before the first pair to the pairs and to the
    cursor [c'] at which no hex string follows. *)
Inductive reads_pairs : C -> list (H * H) -> C -> Prop :=
  | reads_pairs_end (c : C) :
      at_hexstring c = false -> reads_pairs c [] c
  | reads_pairs_step (c : C) (src : H) (c1 : C) (dst : H) (c2 : C)
      (pairs : list (H * H)) (c' : C) :
      at_hexstring c = true ->
      hexstring c = (Ok src, c1) ->
      hexstring (maybe_spaces_or_comments c1) = (Ok dst, c2) ->
      reads_pairs (maybe_spaces_or_comments c2) pairs c' ->
      reads_pairs c ((src, dst) :: pairs) c'.

(** The range that stands for one pair: the source code alone, mapped to
    the destination code. *)
Definition pair_range (p : H * H) : MapRange :=
  mkMapRange (mkRange (as_int (fst p)) (as_int (fst p))) (as_int (snd p)).

Lemma mapped_char_loop_reads_pairs (fuel : nat) :
  forall res c res' c',
    mapped_char_loop fuel res c = Some (Ok res', c') ->
    exists pairs,
      reads_pairs c pairs c' /\ ranges res' = ranges res ++ map pair_range pairs.
Proof.
  induction fuel as [|fuel IH]; intros res c res' c' Hrun; simpl in Hrun.
  - destruct (at_hexstring c) eqn:Hat; [discriminate |]. injection Hrun as <- <-.
    exists []. split; [constructor; exact Hat | simpl; rewrite app_nil_r; reflexivity].
  - destruct (at_hexstring c) eqn:Hat.
    + apply parse_bind_inv_Ok in Hrun. destruct Hrun as (src & c1 & Hsrc & Hrun).
      apply parse_bind_inv_Ok in Hrun. destruct Hrun as ([] & c2 & Hsk1 & Hrun).
      apply parse_bind_inv_Ok in Hrun. destruct Hrun as (dst & c3 & Hdst & Hrun).
      apply parse_bind_inv_Ok in Hrun. destruct Hrun as ([] & c4 & Hsk2 & Hrun).
      unfold parse_op in Hsrc, Hdst. unfold parse_skip in Hsk1, Hsk2.
      injection Hsrc as Hsrc. injection Hdst as Hdst.
      injection Hsk1 as <-. injection Hsk2 as <-.
      destruct (IH _ _ _ _ Hrun) as (pairs & Hreads & Hranges).
      exists ((src, dst) :: pairs). split.
      * exact (reads_pairs_step c src c1 dst c3 pairs c' Hat Hsrc Hdst Hreads).
      * rewrite Hranges. unfold MappedCodespaceRanges_add. simpl.
        rewrite <- app_assoc. reflexivity.
    + injection Hrun as <- <-.
      exists []. split; [constructor; exact Hat | simpl; rewrite app_nil_r; reflexivity].
Qed.

(** A lookup among the ranges of the pairs finds the first pair with that
    source code. *)
Lemma getitem_loop_pair_ranges (pairs : list (H * H)) (x : Z) :
  getitem_loop (H := H) (map pair_range pairs) x
  = match find (fun p => as_int (fst p) =? x) pairs with
    | Some p => Ok (as_int (snd p))
    | None => Raise (KeyError x)
    end.
Proof.
  induction pairs as [|[src dst] pairs IH]; [reflexivity |].
  cbn [map getitem_loop find fst]. unfold Range_contains, MapRange_getitem, Range_contains.
  unfold as_range, MapRange_RangeLike, pair_range. cbn [super begin end_ to_int fst snd map_to_start].
  destruct (Z.eqb_spec (as_int src) x) as [Heq|Hne].
  - subst x. rewrite Z.leb_refl. simpl. f_equal. lia.
  - replace ((as_int src <=? x) && (x <=? as_int src)) with false by lia.
    exact IH.
Qed.

(** X8.  A char section that [mapped_char] has parsed holds one range for each
    pair of hex strings read between the opening and the closing token, in
    the order of the input: the range of a pair is its source code alone,
    mapped to its destination code.  So a lookup of a code returns the
    destination code of the first pair read with that source code, exactly
    as read and with no offset added, and fails with KeyError when no pair
    has it; every range is one code wide, and the result has at most as
    many codes as ranges. *)
Theorem mapped_char_single_codes (fuel : nat) (rangename : string) (c : C)
    (res : MappedCodespaceRanges) (c' : C) :
  mapped_char fuel rangename c = Some (Ok res, c') ->
  (exists c0 pairs c1,
      expected_token ("begin" ++ rangename ++ "char") c = (Ok tt, c0)
      /\ reads_pairs (maybe_spaces_or_comments c0) pairs c1
      /\ expected_token ("end" ++ rangename ++ "char") c1 = (Ok tt, c')
      /\ ranges res = map pair_range pairs
      /\ (forall x,
            MappedCodespaceRanges_getitem (H := H) res x
            = match find (fun p => as_int (fst p) =? x) pairs with
              | Some p => Ok (as_int (snd p))
              | None => Raise (KeyError x)
              end))
  /\ (forall r, r ∈ ranges res -> begin (super r) = end_ (super r))
  /\ (forall x v,
        MappedCodespaceRanges_getitem (H := H) res x = Ok v ->
        exists r, r ∈ ranges res /\ begin (super r) = x /\ map_to_start r = v)
  /\ CodespaceRanges_len res <= Z.of_nat (length (ranges res)).
Proof.
  intros Hrun. unfold mapped_char in Hrun.
  apply parse_bind_inv_Ok in Hrun. destruct Hrun as ([] & c1 & Hbegin & Hrun).
  apply parse_bind_inv_Ok in Hrun. destruct Hrun as ([] & c2 & Hskip & Hrun).
  apply parse_bind_inv_Ok in Hrun. destruct Hrun as (res0 & c3 & Hloop & Hrun).
  apply parse_bind_inv_Ok in Hrun. destruct Hrun as ([] & c4 & Hend & Hrun).
  injection Hrun as <- <-.
  unfold parse_op in Hbegin, Hend. unfold parse_skip in Hskip.
  injection Hbegin as Hbegin. injection Hend as Hend. injection Hskip as <-.
  assert (Hs : single_codes res0).
  { refine (mapped_char_loop_single_codes _ _ _ _ _ _ Hloop).
    intros r Hr. inversion Hr. }
  destruct (mapped_char_loop_reads_pairs _ _ _ _ _ Hloop) as (pairs & Hreads & Hranges).
  simpl in Hranges.
  split; [| split; [exact Hs | split]].
  - exists c1, pairs, c3. split; [exact Hbegin |]. split; [exact Hreads |].
    split; [exact Hend |]. split; [exact Hranges |].
    intros x. unfold MappedCodespaceRanges_getitem. rewrite Hranges.
    apply getitem_loop_pair_ranges.
  - intros x v Hget. exact (single_codes_lookup res0 x v Hs Hget).
  - assert (Hlen := CodespaceRanges_len_le_sum res0).
    assert (Hsum : fold_right Z.add 0 (map (fun r : MapRange => Z.max 0 (Range_len r)) (ranges res0))
                   = Z.of_nat (length (ranges res0))).
    { clear Hloop Hlen Hranges. unfold single_codes in Hs.
      induction (ranges res0) as [|r rs IH]; [reflexivity |].
      cbn [map fold_right length]. rewrite IH by (intros r' Hr'; apply Hs; right; exact Hr').
      assert (Heq := Hs r (list_elem_of_here _ _)).
      unfold Range_len, as_range, MapRange_RangeLike. lia. }
    lia.
Qed.

End SectionParserFacts.


Section MoreDoctests.
Existing Instance doctest_HexString.
Existing Instance sample_cursor.
Local Abbreviation int := (@Int string).

Lemma inverted_range_is_empty_witness :
  Range_contains (Range_init (int 5) (int 0)) (int 3) = false
  /\ Range_len (Range_init (int 5) (int 0)) <= 0
  /\ MapRange_getitem (MapRange_init (int 5) (int 0) (int 7)) 3 = Raise (KeyError 3)
  /\ (forall self : CodespaceRanges,
        CodespaceRanges_as_list (CodespaceRanges_add self (int 5) (int 0))
        = CodespaceRanges_as_list self).
Proof.
  apply (inverted_range_is_empty 5 0 7 3). lia.
Defined.

(** A char section with two pairs for the source code 01: the lookup of 1
    returns 0x41, the destination of the first of them as read, and not
    0x43, nor the source code itself. *)
Lemma mapped_char_single_codes_witness :
  let c := [TWord "beginbfchar"; THex "01"; THex "41"; THex "02"; THex "42";
            THex "01"; THex "43"; TWord "endbfchar"] in
  let res := mkCodespace [mkMapRange (mkRange 1 1) 65; mkMapRange (mkRange 2 2) 66;
                          mkMapRange (mkRange 1 1) 67] in
  mapped_char 3 "bf" c = Some (Ok res, [])
  /\ MappedCodespaceRanges_getitem res 1 = Ok 65
  /\ MappedCodespaceRanges_getitem res 2 = Ok 66
  /\ MappedCodespaceRanges_getitem res 3 = Raise (KeyError 3)
  /\ (exists c0 pairs c1,
        expected_token ("begin" ++ "bf" ++ "char") c = (Ok tt, c0)
        /\ reads_pairs (maybe_spaces_or_comments c0) pairs c1
        /\ expected_token ("end" ++ "bf" ++ "char") c1 = (Ok tt, [])
        /\ ranges res = map pair_range pairs
        /\ (forall x,
              MappedCodespaceRanges_getitem res x
              = match find (fun p => as_int (fst p) =? x) pairs with
                | Some p => Ok (as_int (snd p))
                | None => Raise (KeyError x)
                end))
  /\ (forall r, r ∈ ranges res -> begin (super r) = end_ (super r))
  /\ (forall x v,
        MappedCodespaceRanges_getitem res x = Ok v ->
        exists r, r ∈ ranges res /\ begin (super r) = x /\ map_to_start r = v)
  /\ CodespaceRanges_len res <= Z.of_nat (length (ranges res)).
Proof.
  intros c res.
  assert (Hrun : mapped_char 3 "bf" c = Some (Ok res, [])) by (vm_compute; reflexivity).
  split; [exact Hrun |].
  split; [vm_compute; reflexivity |].
  split; [vm_compute; reflexivity |].
  split; [vm_compute; reflexivity |].
  exact (mapped_char_single_codes 3 "bf" c res [] Hrun).
Defined.

End MoreDoctests.

End cmap_properties.

(* ===================================================================== *)
(** * Properties of document.py *)
(* ===================================================================== *)

Module document_properties.
Import document.
Local Open Scope doc_scope.

(** ** Calls: inversion of [bind] and refinement of computations *)

Section Calls.
Context {S : Type}.

Lemma bind_inv {A B} (m : M S A) (k : A -> M S B) s r s' :
  bind m k s = Some (r, s') ->
  (exists e, m s = Some (Raise e, s') /\ r = Raise e)
  \/ (exists a s1, m s = Some (Ok a, s1) /\ k a s1 = Some (r, s')).
Proof.
  unfold bind. destruct (m s) as [[[a|e] s1]|] eqn:Hm; intros Hk.
  - right. eauto.
  - left. inversion Hk; subst. eauto.
  - discriminate.
Qed.

Lemma bind_inv_Ok {A B} (m : M S A) (k : A -> M S B) s b s' :
  bind m k s = Some (Ok b, s') ->
  exists a s1, m s = Some (Ok a, s1) /\ k a s1 = Some (Ok b, s').
Proof.
  intros Hb. destruct (bind_inv _ _ _ _ _ Hb) as [(e & _ & He) | Hr].
  - discriminate.
  - exact Hr.
Qed.

Lemma bind_Ok {A B} (m : M S A) (k : A -> M S B) s a s1 :
  m s = Some (Ok a, s1) -> bind m k s = k a s1.
Proof. intros Hm. unfold bind. rewrite Hm. reflexivity. Qed.

(** [m'] returns whatever [m] returns. *)
Definition refines {A} (m m' : M S A) : Prop :=
  forall s r, m s = Some r -> m' s = Some r.

Lemma refines_refl {A} (m : M S A) : refines m m.
Proof. intros s r Hm. exact Hm. Qed.

Lemma bind_refines {A B} (m m' : M S A) (k k' : A -> M S B) :
  refines m m' -> (forall a, refines (k a) (k' a)) -> refines (bind m k) (bind m' k').
Proof.
  intros Hm Hk s r. unfold bind.
  destruct (m s) as [[[a|e] s1]|] eqn:Em; intros Hr.
  - rewrite (Hm _ _ Em). apply Hk. exact Hr.
  - rewrite (Hm _ _ Em). exact Hr.
  - discriminate.
Qed.

Lemma comprehension_refines {A B} (f g : A -> M S B) (l : list A) :
  (forall x, refines (f x) (g x)) -> refines (comprehension f l) (comprehension g l).
Proof.
  intros Hfg. induction l as [|x l IH]; simpl.
  - apply refines_refl.
  - apply bind_refines; [apply Hfg |]. intros y.
    apply bind_refines; [exact IH |]. intros ys. apply refines_refl.
Qed.

End Calls.

(** ** The registry only grows *)

Section RegistryFacts.

Lemma Registry_register_keeps (reg : Registry) num gen val k v :
  reg !! k = Some v -> Registry_register reg num gen val !! k = Some v.
Proof.
  intros Hk. unfold Registry_register.
  destruct (reg !! (num, gen)) eqn:Hr; [exact Hk |].
  rewrite lookup_insert_ne; [exact Hk |]. intros Heq; subst k. congruence.
Qed.

Lemma Registry_register_other (reg : Registry) num gen val k :
  k <> (num, gen) -> Registry_register reg num gen val !! k = reg !! k.
Proof.
  intros Hk. unfold Registry_register.
  destruct (reg !! (num, gen)) eqn:Hr; [reflexivity |].
  rewrite lookup_insert_ne; [reflexivity | congruence].
Qed.

Lemma Registry_register_fresh (reg : Registry) num gen val :
  reg !! (num, gen) = None -> Registry_register reg num gen val !! (num, gen) = Some val.
Proof.
  intros Hk. unfold Registry_register. rewrite Hk. apply lookup_insert_eq.
Qed.

Lemma Registry_register_registered (reg : Registry) num gen val :
  Registry_is_registered (Registry_register reg num gen val) num gen = true.
Proof.
  unfold Registry_is_registered.
  destruct (reg !! (num, gen)) as [v|] eqn:Hr.
  - rewrite (Registry_register_keeps _ _ _ _ _ _ Hr). reflexivity.
  - rewrite (Registry_register_fresh _ _ _ _ Hr). reflexivity.
Qed.

Lemma register_all_keeps (l : list (Z * Z * value)) (reg : Registry) k v :
  reg !! k = Some v ->
  fold_left (fun r '(n, g, v) => Registry_register r n g v) l reg !! k = Some v.
Proof.
  revert reg. induction l as [|[[n g] w] l IH]; intros reg Hk; simpl.
  - exact Hk.
  - apply IH. apply Registry_register_keeps. exact Hk.
Qed.

Lemma register_all_other (l : list (Z * Z * value)) (reg : Registry) num gen :
  (forall v, (num, gen, v) ∉ l) ->
  fold_left (fun r '(n, g, v) => Registry_register r n g v) l reg !! (num, gen)
  = reg !! (num, gen).
Proof.
  revert reg. induction l as [|[[n g] w] l IH]; intros reg Hl; simpl.
  - reflexivity.
  - rewrite IH.
    + apply Registry_register_other. intros Heq. inversion Heq; subst.
      apply (Hl w). left.
    + intros v Hv. apply (Hl v). right. exact Hv.
Qed.

End RegistryFacts.

(** ** [locate_object]: what every call leaves in place *)

Section LocateFacts.
Context {P : Type} `{Collaborators P}.

(** The trailer is the same and every registry entry is still there. *)
Definition grows (doc doc' : PDFDocument P) : Prop :=
  trailer doc' = trailer doc
  /\ forall k v, registry doc !! k = Some v -> registry doc' !! k = Some v.

Lemma grows_refl doc : grows doc doc.
Proof. split; [reflexivity | auto]. Qed.

Lemma grows_trans doc1 doc2 doc3 : grows doc1 doc2 -> grows doc2 doc3 -> grows doc1 doc3.
Proof.
  intros [Ht1 Hr1] [Ht2 Hr2]. split; [congruence | auto].
Qed.

Lemma absorb_grows doc (o : ParseOutcome P) : grows doc (absorb doc o).
Proof.
  split; [reflexivity |]. intros k v Hk. simpl. apply register_all_keeps. exact Hk.
Qed.

Definition growing {A} (m : M (PDFDocument P) A) : Prop :=
  forall doc r doc', m doc = Some (r, doc') -> grows doc doc'.

Lemma bind_growing {A B} (m : M (PDFDocument P) A) (k : A -> M (PDFDocument P) B) :
  growing m -> (forall a, growing (k a)) -> growing (bind m k).
Proof.
  intros Hm Hk doc r doc' Hb.
  destruct (bind_inv _ _ _ _ _ Hb) as [(e & Hme & _) | (a & d1 & Hma & Hka)].
  - exact (Hm _ _ _ Hme).
  - exact (grows_trans _ _ _ (Hm _ _ _ Hma) (Hk _ _ _ _ Hka)).
Qed.

Lemma ret_growing {A} (a : A) : growing (ret a).
Proof. intros doc r doc' Hr. inversion Hr; subst. apply grows_refl. Qed.

Lemma is_registered_growing num gen : growing (is_registered num gen).
Proof. intros doc r doc' Hr. inversion Hr; subst. apply grows_refl. Qed.

Lemma parse_at_growing offset : growing (parse_at offset).
Proof.
  intros doc r doc' Hr. inversion Hr; subst.
  destruct (absorb_grows doc
              (parser_indirect_object (parser_reset offset (parser doc))
                 (registry doc) (streams doc))) as [Ht Hk].
  split; assumption.
Qed.

Lemma xref_loop_growing locate num gen xs :
  (forall n g, growing (locate n g)) -> growing (xref_loop locate num gen xs).
Proof.
  intros Hloc. induction xs as [|xref xs IH]; simpl.
  - apply ret_growing.
  - apply bind_growing.
    + destruct (in_use xref !! num) as [xre|]; [| apply ret_growing].
      destruct (generation xre =? gen); [| apply ret_growing].
      apply bind_growing; [apply parse_at_growing |].
      intros _. apply is_registered_growing.
    + intros [|]; [apply ret_growing |].
      apply bind_growing.
      * destruct (compressed xref !! num) as [xre|]; [| apply ret_growing].
        destruct (c_generation xre =? gen); [| apply ret_growing].
        apply bind_growing; [apply Hloc |].
        intros _. apply is_registered_growing.
      * intros [|]; [apply ret_growing | exact IH].
Qed.

Lemma next_brute_force_object_growing : growing next_brute_force_object.
Proof.
  intros doc r doc' Hr. unfold next_brute_force_object in Hr.
  set (o := parser_body_element _ _ _) in Hr.
  destruct (absorb_grows doc o) as [Ht Hk].
  destruct (po_result o); inversion Hr; subst; split; assumption.
Qed.

Lemma set_registry_register_grows (doc : PDFDocument P) num gen val :
  grows doc (set_registry doc (Registry_register (registry doc) num gen val)).
Proof.
  split; [reflexivity |]. intros k v Hk. simpl. apply Registry_register_keeps. exact Hk.
Qed.

Lemma brute_force_loop_growing fuel num gen : growing (brute_force_loop fuel num gen).
Proof.
  induction fuel as [|fuel IH]; intros doc r doc' Hr; simpl in Hr.
  - destruct (Registry_is_registered (registry doc) num gen); [| discriminate].
    inversion Hr; subst. apply grows_refl.
  - destruct (Registry_is_registered (registry doc) num gen).
    { inversion Hr; subst. apply grows_refl. }
    destruct (next_brute_force_object doc) as [[[obj|e] d1]|] eqn:Hn; [| | discriminate].
    + exact (grows_trans _ _ _ (next_brute_force_object_growing _ _ _ Hn) (IH _ _ _ Hr)).
    + assert (Hg := next_brute_force_object_growing _ _ _ Hn).
      destruct e; inversion Hr; subst; try exact Hg.
      exact (grows_trans _ _ _ Hg (set_registry_register_grows _ _ _ _)).
Qed.

Lemma locate_object_growing fuel : forall num gen, growing (locate_object fuel num gen).
Proof.
  induction fuel as [|fuel IH]; intros num gen doc r doc' Hr; simpl in Hr.
  - discriminate.
  - revert Hr. generalize (xrefs (trailer doc)). intros xs Hr.
    revert doc r doc' Hr. fold (growing (A := value)).
    apply bind_growing; [apply xref_loop_growing; exact IH |].
    intros _. apply bind_growing; [apply brute_force_loop_growing |].
    intros _ d r d' Hg. inversion Hg; subst. apply grows_refl.
Qed.

(** A call that returns a value returns the entry that the registry holds
    under the key from then on. *)
Lemma locate_object_returns_entry fuel num gen (doc : PDFDocument P) v doc' :
  locate_object fuel num gen doc = Some (Ok v, doc') ->
  registry doc' !! (num, gen) = Some v.
Proof.
  destruct fuel as [|fuel]; simpl; [discriminate |]. intros Hr.
  apply bind_inv_Ok in Hr. destruct Hr as (_ & d1 & _ & Hr).
  apply bind_inv_Ok in Hr. destruct Hr as (_ & d2 & _ & Hr).
  unfold Registry_get in Hr.
  destruct (registry d2 !! (num, gen)) eqn:Hk; inversion Hr; subst. exact Hk.
Qed.

End LocateFacts.

(** ** [locate_object] twice on the same key *)

Section LocateTwice.
Context {P : Type} `{Collaborators P}.

Lemma registered_of_lookup (reg : Registry) num gen v :
  reg !! (num, gen) = Some v -> Registry_is_registered reg num gen = true.
Proof. intros Hk. unfold Registry_is_registered. rewrite Hk. reflexivity. Qed.

Lemma lookup_of_registered (reg : Registry) num gen :
  Registry_is_registered reg num gen = true -> exists v, reg !! (num, gen) = Some v.
Proof.
  unfold Registry_is_registered. destruct (reg !! (num, gen)) as [v|]; [eauto | discriminate].
Qed.

Lemma grows_registered (doc doc' : PDFDocument P) num gen :
  grows doc doc' ->
  Registry_is_registered (registry doc) num gen = true ->
  Registry_is_registered (registry doc') num gen = true.
Proof.
  intros [_ Hk] Hr. destruct (lookup_of_registered _ _ _ Hr) as [v Hv].
  apply (registered_of_lookup _ _ _ v). apply Hk. exact Hv.
Qed.

Lemma brute_force_loop_registered fuel num gen (doc : PDFDocument P) :
  Registry_is_registered (registry doc) num gen = true ->
  brute_force_loop fuel num gen doc = Some (Ok tt, doc).
Proof.
  intros Hr. destruct fuel; simpl; rewrite Hr; reflexivity.
Qed.

(** The loop over the index sections, run again once the key is
    registered, stops at the first section that names the key. *)
Lemma xref_loop_again (locate : Z -> Z -> M (PDFDocument P) value) num gen :
  (forall n g, growing (locate n g)) ->
  (forall n g doc v doc1, locate n g doc = Some (Ok v, doc1) ->
     forall doc2, grows doc1 doc2 ->
     exists doc3, locate n g doc2 = Some (Ok v, doc3) /\ grows doc2 doc3) ->
  forall xs doc da,
    xref_loop locate num gen xs doc = Some (Ok tt, da) ->
    forall doc2, grows da doc2 ->
    Registry_is_registered (registry doc2) num gen = true ->
    exists d2a, xref_loop locate num gen xs doc2 = Some (Ok tt, d2a) /\ grows doc2 d2a.
Proof.
  intros Hgrow Hagain. induction xs as [|xref xs IH]; intros doc da Hr doc2 Hg Hreg; simpl in *.
  - exists doc2. split; [reflexivity | apply grows_refl].
  - destruct (in_use xref !! num) as [xre|] eqn:Hin;
      [destruct (generation xre =? gen) eqn:Hgen |].
    { (* the index names the key at an offset: parse there, then break *)
      exists (absorb doc2
                (parser_indirect_object (parser_reset (offset xre) (parser doc2))
                   (registry doc2) (streams doc2))).
      split; [| apply absorb_grows].
      unfold bind at 1. unfold bind at 1. unfold parse_at, is_registered.
      rewrite (grows_registered _ _ _ _ (absorb_grows doc2 _) Hreg). reflexivity. }
    all: apply bind_inv_Ok in Hr; destruct Hr as (found & d1 & Hf & Hr);
      inversion Hf; subst found d1; clear Hf;
      rewrite (bind_Ok _ _ doc2 false doc2) by reflexivity;
      destruct (compressed xref !! num) as [cre|] eqn:Hc;
      [destruct (c_generation cre =? gen) eqn:Hcg |].
    1, 4: (* a container is named: locate it again, then break *)
      apply bind_inv_Ok in Hr; destruct Hr as (found & d1 & Hf & Hr);
      apply bind_inv_Ok in Hf; destruct Hf as (w & d0 & Hloc & Hf);
      inversion Hf; subst found d1; clear Hf;
      assert (Hd0 : grows d0 da)
        by (destruct (Registry_is_registered (registry d0) num gen);
            [inversion Hr; subst; apply grows_refl
            | exact (xref_loop_growing _ _ _ _ Hgrow _ _ _ Hr)]);
      destruct (Hagain _ _ _ _ _ Hloc doc2 (grows_trans _ _ _ Hd0 Hg)) as (d3 & Hloc2 & Hg3);
      exists d3; split; [| exact Hg3];
      unfold bind at 1; unfold bind at 1; rewrite Hloc2; unfold is_registered;
      rewrite (grows_registered _ _ _ _ Hg3 Hreg); reflexivity.
    all: (* this section does not name the key: go on to the next *)
      apply bind_inv_Ok in Hr; destruct Hr as (found & d1 & Hf & Hr);
      inversion Hf; subst found d1; clear Hf;
      rewrite (bind_Ok _ _ doc2 false doc2) by reflexivity;
      exact (IH _ _ Hr _ Hg Hreg).
Qed.

Lemma locate_object_again fuel :
  forall num gen (doc : PDFDocument P) v doc1,
    locate_object fuel num gen doc = Some (Ok v, doc1) ->
    forall doc2, grows doc1 doc2 ->
    exists doc3, locate_object fuel num gen doc2 = Some (Ok v, doc3) /\ grows doc2 doc3.
Proof.
  induction fuel as [|fuel IH]; intros num gen doc v doc1 Hr doc2 Hg; [discriminate |].
  assert (Hv := locate_object_returns_entry _ _ _ _ _ _ Hr).
  assert (Hg1 := locate_object_growing _ _ _ _ _ _ Hr).
  simpl in Hr.
  apply bind_inv_Ok in Hr. destruct Hr as ([] & da & Hx & Hr).
  apply bind_inv_Ok in Hr. destruct Hr as ([] & db & Hb & Hr).
  injection Hr as Hget Hdb; subst doc1.
  assert (Hv2 : registry doc2 !! (num, gen) = Some v) by (apply Hg; exact Hv).
  assert (Hreg := registered_of_lookup _ _ _ _ Hv2).
  assert (Hda : grows da doc2)
    by exact (grows_trans _ _ _ (brute_force_loop_growing _ _ _ _ _ _ Hb) Hg).
  assert (Ht : trailer doc2 = trailer doc)
    by (destruct Hg as [Ht2 _]; destruct Hg1 as [Ht1 _]; congruence).
  destruct (xref_loop_again (locate_object fuel) num gen (locate_object_growing fuel) IH
              _ _ _ Hx doc2 Hda Hreg) as (d2a & Hx2 & Hg2).
  exists d2a. split; [| exact Hg2].
  simpl. rewrite Ht. rewrite (bind_Ok _ _ _ _ _ Hx2).
  assert (Hreg2 := grows_registered _ _ _ _ Hg2 Hreg).
  rewrite (bind_Ok _ _ _ _ _ (brute_force_loop_registered fuel num gen d2a Hreg2)).
  cbv beta. unfold Registry_get. destruct Hg2 as [_ Hk2]. rewrite (Hk2 _ _ Hv2). reflexivity.
Qed.

End LocateTwice.

(** C4.  When [locate_object(num, gen)] has returned a value, a second call
    on the document as the first call left it returns the same value, and
    that value is the registry's entry under the key before and after; no
    registration, under this key or another, replaces the entry, and neither
    does any later resolution of any key. *)
Theorem locate_object_twice {P : Type} `{Collaborators P}
    (fuel : nat) (num gen : Z) (doc : PDFDocument P) (v : value) (doc1 : PDFDocument P) :
  locate_object fuel num gen doc = Some (Ok v, doc1) ->
  registry doc1 !! (num, gen) = Some v
  /\ (exists doc2,
        locate_object fuel num gen doc1 = Some (Ok v, doc2)
        /\ registry doc2 !! (num, gen) = Some v)
  /\ (forall n g w, Registry_register (registry doc1) n g w !! (num, gen) = Some v)
  /\ (forall fuel' n g r doc',
        locate_object fuel' n g doc1 = Some (r, doc') ->
        registry doc' !! (num, gen) = Some v).
Proof.
  intros Hr.
  assert (Hv := locate_object_returns_entry _ _ _ _ _ _ Hr).
  split; [exact Hv |]. split; [| split].
  - destruct (locate_object_again _ _ _ _ _ _ Hr doc1 (grows_refl doc1)) as (doc2 & H2 & _).
    exists doc2. split; [exact H2 |].
    exact (locate_object_returns_entry _ _ _ _ _ _ H2).
  - intros n g w. apply Registry_register_keeps. exact Hv.
  - intros fuel' n g r doc' Hr'.
    destruct (locate_object_growing _ _ _ _ _ _ Hr') as [_ Hk]. apply Hk. exact Hv.
Qed.

Lemma locate_object_twice_witness :
  let doc1 := set_registry blank_doc {[ (7, 0) := null ]} in
  @locate_object unit empty_source 2 7 0 blank_doc = Some (Ok null, doc1)
  /\ (registry doc1 !! (7, 0) = Some null
      /\ (exists doc2,
            @locate_object unit empty_source 2 7 0 doc1 = Some (Ok null, doc2)
            /\ registry doc2 !! (7, 0) = Some null)
      /\ (forall n g w, Registry_register (registry doc1) n g w !! (7, 0) = Some null)
      /\ (forall fuel' n g r doc',
            @locate_object unit empty_source fuel' n g doc1 = Some (r, doc') ->
            registry doc' !! (7, 0) = Some null)).
Proof.
  assert (Hrun : @locate_object unit empty_source 2 7 0 blank_doc
                 = Some (Ok null, set_registry blank_doc {[ (7, 0) := null ]}))
    by (vm_compute; reflexivity).
  split; [exact Hrun |].
  exact (@locate_object_twice unit empty_source 2 7 0 blank_doc null _ Hrun).
Defined.

(** ** A key that exists nowhere in the source *)

Section Missing.
Context {P : Type} `{Collaborators P}.

Lemma absorb_never_parsed_indirect (doc : PDFDocument P) num gen p :
  never_parsed num gen ->
  registry (absorb doc (parser_indirect_object p (registry doc) (streams doc))) !! (num, gen)
  = registry doc !! (num, gen).
Proof.
  intros Hnp. simpl. apply register_all_other. intros v. apply (Hnp p _ _ v).
Qed.

Lemma absorb_never_parsed_body (doc : PDFDocument P) num gen p :
  never_parsed num gen ->
  registry (absorb doc (parser_body_element p (registry doc) (streams doc))) !! (num, gen)
  = registry doc !! (num, gen).
Proof.
  intros Hnp. simpl. apply register_all_other. intros v. apply (Hnp p _ _ v).
Qed.

(** With no container named for the key, the loop over the index sections
    only parses at the offsets that the sections give; the key stays
    unregistered and the brute-force cursor stays where it was. *)
Lemma xref_loop_in_use_only (locate : Z -> Z -> M (PDFDocument P) value) num gen xs :
  never_parsed num gen ->
  not_compressed num gen xs = true ->
  forall doc,
    registry doc !! (num, gen) = None ->
    exists doc',
      xref_loop locate num gen xs doc = Some (Ok tt, doc')
      /\ registry doc' !! (num, gen) = None
      /\ brute_force_state doc' = brute_force_state doc.
Proof.
  intros Hnp. induction xs as [|xref xs IH]; intros Hnc doc Hk; simpl in *.
  - exists doc. repeat split; assumption.
  - apply andb_true_iff in Hnc. destruct Hnc as [Hx Hnc].
    assert (Hcomp :
      (match compressed xref !! num with
       | Some xre =>
           if c_generation xre =? gen
           then locate (number xre) (c_generation xre) ;;; is_registered num gen
           else ret false
       | None => ret false
       end) = ret false).
    { destruct (compressed xref !! num) as [xre|]; [| reflexivity].
      apply negb_true_iff in Hx. rewrite Hx. reflexivity. }
    rewrite Hcomp. clear Hcomp.
    destruct (in_use xref !! num) as [xre|]; [destruct (generation xre =? gen) |].
    + set (d1 := absorb doc (parser_indirect_object (parser_reset (offset xre) (parser doc))
                               (registry doc) (streams doc))).
      assert (Hk1 : registry d1 !! (num, gen) = None)
        by (unfold d1; rewrite absorb_never_parsed_indirect by exact Hnp; exact Hk).
      destruct (IH Hnc d1 Hk1) as (doc' & Hr & Hk' & Hb).
      exists doc'. split; [| split; [exact Hk' | exact Hb]].
      unfold bind at 1. unfold bind at 1. unfold parse_at, is_registered. fold d1.
      unfold Registry_is_registered. rewrite Hk1.
      unfold bind at 1. unfold ret at 1. exact Hr.
    + destruct (IH Hnc doc Hk) as (doc' & Hr & Hk' & Hb).
      exists doc'. split; [| split; [exact Hk' | exact Hb]]. exact Hr.
    + destruct (IH Hnc doc Hk) as (doc' & Hr & Hk' & Hb).
      exists doc'. split; [| split; [exact Hk' | exact Hb]]. exact Hr.
Qed.

(** Over a finite source the brute-force scan reaches a parse failure, and
    the key is then registered with null. *)
Lemma brute_force_loop_exhausts (remaining : P -> nat) num gen :
  never_parsed num gen ->
  advances remaining ->
  forall fuel doc,
    (remaining (brute_force_state doc) < fuel)%nat ->
    registry doc !! (num, gen) = None ->
    exists doc',
      brute_force_loop fuel num gen doc = Some (Ok tt, doc')
      /\ registry doc' !! (num, gen) = Some null.
Proof.
  intros Hnp Hadv. induction fuel as [|fuel IH]; intros doc Hlt Hk; [lia |].
  simpl. unfold Registry_is_registered. rewrite Hk.
  unfold next_brute_force_object.
  set (p := parser_maybe_spaces_or_comments (brute_force_state doc)).
  set (o := parser_body_element p (registry doc) (streams doc)).
  assert (Hk1 : registry (absorb doc o) !! (num, gen) = None)
    by (unfold o; rewrite absorb_never_parsed_body by exact Hnp; exact Hk).
  destruct (po_result o) as [obj|] eqn:Hres.
  - apply IH.
    + simpl. assert (Hlt' := Hadv (brute_force_state doc) (registry doc) (streams doc) obj Hres).
      fold p in Hlt'. fold o in Hlt'. lia.
    + exact Hk1.
  - eexists. split; [reflexivity |]. simpl.
    apply Registry_register_fresh. exact Hk1.
Qed.

(** C2.  Let the key be unregistered, let no operation of the parser ever
    register it and no index section name a container for it, and let the
    source be finite.  Then [locate_object(num, gen)] returns null without
    raising: the brute-force scan ends in a parse failure, the key is
    registered with null, and that entry is what the call returns. *)
Theorem locate_object_missing (remaining : P -> nat) (num gen : Z) (doc : PDFDocument P) :
  registry doc !! (num, gen) = None ->
  never_parsed num gen ->
  not_compressed num gen (xrefs (trailer doc)) = true ->
  advances remaining ->
  exists doc',
    locate_object (2 + remaining (brute_force_state doc)) num gen doc = Some (Ok null, doc')
    /\ registry doc' !! (num, gen) = Some null.
Proof.
  intros Hk Hnp Hnc Hadv. simpl.
  destruct (xref_loop_in_use_only
              (locate_object (1 + remaining (brute_force_state doc))) num gen _ Hnp Hnc doc Hk)
    as (d1 & Hx & Hk1 & Hb1).
  rewrite (bind_Ok _ _ _ _ _ Hx).
  destruct (brute_force_loop_exhausts remaining num gen Hnp Hadv
              (1 + remaining (brute_force_state doc)) d1) as (d2 & Hbf & Hk2).
  { rewrite Hb1. lia. }
  { exact Hk1. }
  rewrite (bind_Ok _ _ _ _ _ Hbf). cbv beta.
  exists d2. unfold Registry_get. rewrite Hk2. split; reflexivity.
Qed.

End Missing.

Lemma empty_source_never_parsed num gen : @never_parsed unit empty_source num gen.
Proof. intros p reg h v. split; apply not_elem_of_nil. Qed.

Lemma empty_source_advances : @advances unit empty_source (fun _ => 0%nat).
Proof. intros p reg h v o Hres. discriminate. Qed.

Lemma locate_object_missing_witness :
  exists doc',
    @locate_object unit empty_source 2 7 0 blank_doc = Some (Ok null, doc')
    /\ registry doc' !! (7, 0) = Some null.
Proof.
  apply (@locate_object_missing unit empty_source (fun _ => 0%nat) 7 0 blank_doc).
  - reflexivity.
  - apply empty_source_never_parsed.
  - reflexivity.
  - apply empty_source_advances.
Defined.

(** ** [locate_object] never raises, whatever the index sections say *)

Section Quiet.
Context {P : Type} `{Collaborators P}.

Definition quiet {A} (m : M (PDFDocument P) A) : Prop :=
  forall doc r doc', m doc = Some (r, doc') -> exists a, r = Ok a.

Lemma bind_quiet {A B} (m : M (PDFDocument P) A) (k : A -> M (PDFDocument P) B) :
  quiet m -> (forall a, quiet (k a)) -> quiet (bind m k).
Proof.
  intros Hm Hk doc r doc' Hb.
  destruct (bind_inv _ _ _ _ _ Hb) as [(e & Hme & _) | (a & d1 & _ & Hka)].
  - destruct (Hm _ _ _ Hme) as [a Ha]. discriminate.
  - exact (Hk _ _ _ _ Hka).
Qed.

Lemma ret_quiet {A} (a : A) : quiet (ret a).
Proof. intros doc r doc' Hr. inversion Hr; subst. eauto. Qed.

Lemma xref_loop_quiet locate num gen xs :
  (forall n g, quiet (locate n g)) -> quiet (xref_loop locate num gen xs).
Proof.
  intros Hloc.
  assert (Hreg : quiet (is_registered num gen))
    by (intros doc r doc' Hr; inversion Hr; subst; eauto).
  induction xs as [|xref xs IH]; simpl.
  - apply ret_quiet.
  - apply bind_quiet.
    + destruct (in_use xref !! num) as [xre|]; [| apply ret_quiet].
      destruct (generation xre =? gen); [| apply ret_quiet].
      apply bind_quiet; [| intros _; exact Hreg].
      intros doc r doc' Hr. inversion Hr; subst. eauto.
    + intros [|]; [apply ret_quiet |].
      apply bind_quiet.
      * destruct (compressed xref !! num) as [xre|]; [| apply ret_quiet].
        destruct (c_generation xre =? gen); [| apply ret_quiet].
        apply bind_quiet; [apply Hloc | intros _; exact Hreg].
      * intros [|]; [apply ret_quiet | exact IH].
Qed.

(** When the brute-force loop ends, the key is registered. *)
Lemma brute_force_loop_ends_registered fuel num gen :
  forall (doc : PDFDocument P) r doc',
    brute_force_loop fuel num gen doc = Some (r, doc') ->
    r = Ok tt /\ Registry_is_registered (registry doc') num gen = true.
Proof.
  induction fuel as [|fuel IH]; intros doc r doc' Hr; simpl in Hr.
  - destruct (Registry_is_registered (registry doc) num gen) eqn:Hreg; [| discriminate].
    inversion Hr; subst. split; [reflexivity | exact Hreg].
  - destruct (Registry_is_registered (registry doc) num gen) eqn:Hreg.
    { inversion Hr; subst. split; [reflexivity | exact Hreg]. }
    unfold next_brute_force_object in Hr.
    destruct (po_result _) as [obj|].
    + exact (IH _ _ _ Hr).
    + inversion Hr; subst. split; [reflexivity |]. simpl.
      apply Registry_register_registered.
Qed.

Lemma locate_object_quiet fuel : forall num gen, quiet (locate_object fuel num gen).
Proof.
  induction fuel as [|fuel IH]; intros num gen doc r doc' Hr; simpl in Hr; [discriminate |].
  destruct (bind_inv _ _ _ _ _ Hr) as [(e & Hx & _) | ([] & d1 & _ & Hr1)].
  { destruct (xref_loop_quiet _ _ _ _ IH _ _ _ Hx) as [a Ha]. discriminate. }
  destruct (bind_inv _ _ _ _ _ Hr1) as [(e & Hb & _) | ([] & d2 & Hb & Hr2)].
  { destruct (brute_force_loop_ends_registered _ _ _ _ _ _ Hb) as [Ha _]. discriminate. }
  destruct (brute_force_loop_ends_registered _ _ _ _ _ _ Hb) as [_ Hreg].
  destruct (lookup_of_registered _ _ _ Hreg) as [v Hv].
  injection Hr2 as Hget Hd. unfold Registry_get in Hget. rewrite Hv in Hget.
  exists v. congruence.
Qed.

(** X10.  If the parser never registers the key and the key is unregistered, any
    call of [locate_object] on it that returns, returns null: this holds
    for every shape of the index sections, containers included. *)
Lemma missing_key_resolves_to_null num gen :
  never_parsed num gen ->
  forall fuel (doc : PDFDocument P) r doc',
    registry doc !! (num, gen) = None ->
    locate_object fuel num gen doc = Some (r, doc') ->
    r = Ok null /\ registry doc' !! (num, gen) = Some null.
Proof.
  intros Hnp.
  set (J := fun d : PDFDocument P =>
              registry d !! (num, gen) = None \/ registry d !! (num, gen) = Some null).
  assert (Hbind : forall A B (m : M (PDFDocument P) A) (k : A -> M (PDFDocument P) B),
             (forall d r d', J d -> m d = Some (r, d') -> J d') ->
             (forall a d r d', J d -> k a d = Some (r, d') -> J d') ->
             forall d r d', J d -> bind m k d = Some (r, d') -> J d').
  { intros A B m k Hm Hk d r d' HJ Hb.
    destruct (bind_inv _ _ _ _ _ Hb) as [(e & Hme & _) | (a & d1 & Hma & Hka)].
    - exact (Hm _ _ _ HJ Hme).
    - exact (Hk _ _ _ _ (Hm _ _ _ HJ Hma) Hka). }
  assert (Hret : forall A (a : A) d r d', J d -> ret a d = Some (r, d') -> J d')
    by (intros A a d r d' HJ Hr; inversion Hr; subst; exact HJ).
  assert (Hisreg : forall n g d r d', J d -> is_registered n g d = Some (r, d') -> J d')
    by (intros n g d r d' HJ Hr; inversion Hr; subst; exact HJ).
  assert (Hreg : forall n g d, J d ->
             J (set_registry d (Registry_register (registry d) n g null))).
  { intros n g d HJ. unfold J in *. simpl.
    destruct (decide ((num, gen) = (n, g))) as [Heq|Hne].
    - injection Heq as -> ->. right.
      destruct HJ as [Hn|Hs];
        [apply Registry_register_fresh | apply Registry_register_keeps]; assumption.
    - rewrite Registry_register_other by exact Hne. exact HJ. }
  assert (Hloc : forall fuel n g d r d',
             J d -> locate_object fuel n g d = Some (r, d') -> J d').
  { induction fuel as [|fuel IH]; intros n g d r d' HJ Hr; simpl in Hr; [discriminate |].
    revert Hr. generalize (xrefs (trailer d)). intros xs Hr.
    revert d r d' HJ Hr. apply Hbind.
    - induction xs as [|xref xs IHxs]; simpl; [apply Hret |].
      apply Hbind.
      + destruct (in_use xref !! n) as [xre|]; [| apply Hret].
        destruct (generation xre =? g); [| apply Hret].
        apply Hbind; [| intros _; apply Hisreg].
        intros d0 r0 d0' HJ0 Hr0. inversion Hr0; subst. unfold J in *.
        rewrite absorb_never_parsed_indirect by exact Hnp. exact HJ0.
      + intros [|]; [apply Hret |].
        apply Hbind.
        * destruct (compressed xref !! n) as [xre|]; [| apply Hret].
          destruct (c_generation xre =? g); [| apply Hret].
          apply Hbind; [apply IH | intros _; apply Hisreg].
        * intros [|]; [apply Hret | exact IHxs].
    - intros _. apply Hbind.
      + clear IH. induction fuel as [|fuel IHf]; intros d0 r0 d0' HJ0 Hr0; simpl in Hr0.
        * destruct (Registry_is_registered (registry d0) n g); [| discriminate].
          inversion Hr0; subst. exact HJ0.
        * destruct (Registry_is_registered (registry d0) n g).
          { inversion Hr0; subst. exact HJ0. }
          unfold next_brute_force_object in Hr0.
          set (o := parser_body_element _ _ _) in Hr0.
          assert (HJ1 : J (absorb d0 o))
            by (unfold J in *; unfold o;
                rewrite absorb_never_parsed_body by exact Hnp; exact HJ0).
          destruct (po_result o) as [obj|].
          -- refine (IHf _ _ _ _ Hr0). exact HJ1.
          -- inversion Hr0; subst. apply Hreg. exact HJ1.
      + intros _ d0 r0 d0' HJ0 Hr0. inversion Hr0; subst. exact HJ0. }
  intros fuel doc r doc' Hk Hr.
  destruct (locate_object_quiet _ _ _ _ _ _ Hr) as [v ->].
  assert (Hv := locate_object_returns_entry _ _ _ _ _ _ Hr).
  destruct (Hloc _ _ _ _ _ _ (or_introl Hk) Hr) as [Hn|Hs]; [congruence |].
  split; [congruence | exact Hs].
Qed.

End Quiet.

(** ** [deep_obj_by_ref] *)

(** C3.  The loop of [deep_obj_by_ref] runs while the value is an
    IndirectObject.  An IndirectReference is therefore handed back at once,
    unresolved and without an error, whatever [maxdepth] is and whatever the
    document holds: on the chain of 150 references the call with
    [maxdepth = 100] does not fail and the call with [maxdepth = 200] does
    not reach the end of the chain, although the first reference does
    resolve to the second. *)
Theorem deep_obj_by_ref_returns_references :
  (forall (P : Type) (C : Collaborators P) (fuel rfuel : nat) (r : IndirectReference)
          (maxdepth : Z) (doc : PDFDocument P),
      deep_obj_by_ref fuel rfuel (Reference r) maxdepth doc = Some (Ok (Reference r), doc))
  /\ @deep_obj_by_ref unit empty_source 200 2 (ref 1 0) 100 (chain_doc 150)
     = Some (Ok (ref 1 0), chain_doc 150)
  /\ @deep_obj_by_ref unit empty_source 200 2 (ref 1 0) 200 (chain_doc 150)
     = Some (Ok (ref 1 0), chain_doc 150)
  /\ @obj_by_ref unit empty_source 2 1 0 (chain_doc 150)
     = Some (Ok (ref 2 0), chain_doc 150).
Proof.
  split; [| split; [| split]].
  - intros P C fuel rfuel r maxdepth doc. destruct fuel; reflexivity.
  - reflexivity.
  - reflexivity.
  - vm_compute. reflexivity.
Qed.

(** On an IndirectObject the budget is what the code checks: with no hops
    left the call raises. *)
Lemma deep_obj_by_ref_indirect_object_no_budget {P : Type} `{Collaborators P}
    (fuel rfuel : nat) (n g : Z) (v : value) (doc : PDFDocument P) :
  deep_obj_by_ref fuel rfuel (IndirectObject n g v) 0 doc
  = Some (Raise (ValueError "Max reference depth exceeded"), doc).
Proof. destruct fuel; reflexivity. Qed.

(** ** [build] and the Stream object it is given *)

(** C9.  Evaluation of [build(stream, None, False)] on a Stream object whose
    dictionary holds a reference to the integer 42: after the call the
    object's dictionary holds 42 in place of the reference.  The payload is
    the same, and with [lazy] the object is not touched. *)
Theorem build_assigns_stream_dictionary :
  streams stream_doc !! 0%nat
  = Some (mkStream [("Length"%string, ref 5 0)] [Byte.x68; Byte.x69])
  /\ (exists doc',
        @build unit empty_source 2 1 (StreamAt 0) None false stream_doc
        = Some (Ok (StreamAt 0), ([], doc'))
        /\ streams doc' !! 0%nat
           = Some (mkStream [("Length"%string, Integer 42)] [Byte.x68; Byte.x69]))
  /\ @build unit empty_source 2 1 (StreamAt 0) None true stream_doc
     = Some (Ok (StreamAt 0), ([], stream_doc)).
Proof.
  split; [| split].
  - vm_compute. reflexivity.
  - eexists. split; vm_compute; reflexivity.
  - vm_compute. reflexivity.
Qed.

(** The assignment does not depend on the collaborators: for every parser
    and every factory, an eager [build] of a Stream object whose dictionary
    holds a wrapped value leaves the unwrapped value in the dictionary. *)
Lemma eager_build_rewrites_any_stream {P : Type} `{Collaborators P}
    (fuel rfuel : nat) (a : nat) (payload : list Byte.byte) (doc : PDFDocument P) :
  streams doc !! a
  = Some (mkStream [("K"%string, IndirectObject 1 0 (Integer 7))] payload) ->
  exists doc',
    build (3 + fuel) rfuel (StreamAt a) None false doc
    = Some (Ok (obj_factory doc' (StreamAt a)), ([], doc'))
    /\ streams doc' !! a = Some (mkStream [("K"%string, Integer 7)] payload).
Proof.
  intros Ha. eexists. split.
  - simpl. unfold bind at 1. simpl. unfold bind at 1. unfold bind at 1. unfold bind at 1.
    unfold on_doc at 1. unfold get_dictionary. rewrite Ha. simpl.
    unfold bind at 1. simpl. unfold on_doc, set_dictionary. rewrite Ha. simpl.
    reflexivity.
  - simpl. apply lookup_insert_eq.
Qed.

(** ** [build] and its [visited] list *)

Section Visited.
Context {P : Type} `{Collaborators P}.

(** A call that returns normally leaves [visited] as it found it. *)
Definition restores {A} (m : M (list IndirectReference * PDFDocument P) A) : Prop :=
  forall visited doc a visited' doc',
    m (visited, doc) = Some (Ok a, (visited', doc')) -> visited' = visited.

Lemma bind_restores {A B} (m : M (list IndirectReference * PDFDocument P) A)
    (k : A -> M (list IndirectReference * PDFDocument P) B) :
  restores m -> (forall a, restores (k a)) -> restores (bind m k).
Proof.
  intros Hm Hk visited doc b visited' doc' Hb.
  apply bind_inv_Ok in Hb. destruct Hb as (a & [v1 d1] & Hma & Hka).
  rewrite (Hk _ _ _ _ _ _ Hka). exact (Hm _ _ _ _ _ Hma).
Qed.

Lemma ret_restores {A} (a : A) : restores (ret a).
Proof. intros visited doc b visited' doc' Hr. inversion Hr; subst. reflexivity. Qed.

Lemma on_doc_inv {A} (m : M (PDFDocument P) A) visited doc r visited' doc' :
  on_doc m (visited, doc) = Some (r, (visited', doc')) ->
  visited' = visited /\ m doc = Some (r, doc').
Proof.
  unfold on_doc. destruct (m doc) as [[r0 d0]|]; [| discriminate].
  intros Hr. inversion Hr; subst. split; reflexivity.
Qed.

Lemma on_doc_restores {A} (m : M (PDFDocument P) A) : restores (on_doc m).
Proof.
  intros visited doc a visited' doc' Hr. apply on_doc_inv in Hr. tauto.
Qed.

Lemma comprehension_restores {A B}
    (f : A -> M (list IndirectReference * PDFDocument P) B) (l : list A) :
  (forall x, restores (f x)) -> restores (comprehension f l).
Proof.
  intros Hf. induction l as [|x l IH]; simpl.
  - apply ret_restores.
  - apply bind_restores; [apply Hf |]. intros y.
    apply bind_restores; [exact IH |]. intros ys. apply ret_restores.
Qed.

Lemma build_body_restores (rec : value -> M (list IndirectReference * PDFDocument P) value)
    (obj : value) (lazy : bool) :
  (forall o, restores (rec o)) -> restores (build_body rec obj lazy).
Proof.
  intros Hrec.
  assert (Hitems : forall items : list (string * value),
             restores (comprehension (fun '(k, o) => o <- rec o ;; ret (k, o)) items)).
  { intros items. apply comprehension_restores. intros [k o].
    apply bind_restores; [apply Hrec |]. intros o'. apply ret_restores. }
  destruct obj; simpl; try apply ret_restores.
  - apply bind_restores; [apply comprehension_restores; exact Hrec |].
    intros items'. apply ret_restores.
  - apply bind_restores; [| intros items'; apply on_doc_restores].
    destruct lazy; simpl; [apply ret_restores | apply Hitems].
  - apply bind_restores; [| intros _; apply on_doc_restores].
    destruct lazy; simpl; [apply ret_restores |].
    apply bind_restores; [apply on_doc_restores |]. intros d.
    apply bind_restores; [apply Hitems |]. intros d'. apply on_doc_restores.
  - apply Hrec.
Qed.

(** Lines 56-61: either [visited] is as before and nothing is set aside
    for the return, or the reference was appended and [visited.pop] is. *)
Lemma enter_inv rfuel obj visited (doc : PDFDocument P) o on_return visited1 doc1 :
  enter rfuel obj (visited, doc) = Some (Ok (o, on_return), (visited1, doc1)) ->
  (on_return = false /\ visited1 = visited /\ o = obj /\ doc1 = doc)
  \/ (on_return = true /\ exists r, obj = Reference r /\ (r ∉ visited)
      /\ visited1 = visited ++ [r]
      /\ obj_by_ref rfuel (num r) (gen r) doc = Some (Ok o, doc1)).
Proof.
  intros He.
  destruct obj; simpl in He; try (inversion He; subst; left; repeat split; reflexivity).
  unfold bind at 1 in He. unfold visited_contains in He.
  destruct (bool_decide (ref0 ∈ visited)) eqn:Hseen.
  - inversion He; subst. left. repeat split; reflexivity.
  - apply bool_decide_eq_false in Hseen.
    unfold bind at 1 in He. unfold visited_append in He.
    apply bind_inv_Ok in He. destruct He as (o' & [v1 d1] & Hres & Hret).
    inversion Hret; subst. apply on_doc_inv in Hres. destruct Hres as [-> Hres].
    right. split; [reflexivity |]. exists ref0. repeat split; assumption.
Qed.

Lemma leave_inv on_return obj visited (doc : PDFDocument P) res visited' doc' :
  leave on_return obj (visited, doc) = Some (Ok res, (visited', doc')) ->
  res = obj /\ doc' = doc
  /\ visited' = (if on_return then removelast visited else visited).
Proof.
  unfold leave. destruct on_return.
  - unfold bind, visited_pop. destruct visited as [|r visited]; [discriminate |].
    intros Hr. inversion Hr; subst. repeat split; reflexivity.
  - intros Hr. inversion Hr; subst. repeat split; reflexivity.
Qed.

Lemma build_restores fuel rfuel lazy :
  forall obj,
    restores (fun '(visited, doc) => build fuel rfuel obj (Some visited) lazy doc).
Proof.
  induction fuel as [|fuel IH]; intros obj visited doc res visited' doc' Hb;
    [discriminate |].
  simpl in Hb.
  apply bind_inv_Ok in Hb. destruct Hb as ([o on_return] & [v1 d1] & He & Hb).
  apply bind_inv_Ok in Hb. destruct Hb as (o' & [v2 d2] & Hbody & Hl).
  apply (build_body_restores _ _ _ IH) in Hbody. subst v2.
  apply leave_inv in Hl. destruct Hl as (_ & _ & ->).
  apply enter_inv in He.
  destruct He as [(-> & -> & _) | (-> & r & _ & _ & -> & _)].
  - reflexivity.
  - apply removelast_last.
Qed.

(** C10.  Whenever [build] returns normally, the list [visited] is the list
    that the call was given.  A reference that is not in the list is
    appended before it is resolved, so that the list holds it while the
    resolved object is traversed, and it is removed before the return; for
    any other argument, and for a reference that is in the list, nothing is
    appended. *)
Theorem build_leaves_visited_unchanged (fuel rfuel : nat) (obj : value)
    (visited : list IndirectReference) (lazy : bool) (doc : PDFDocument P)
    (res : value) (visited' : list IndirectReference) (doc' : PDFDocument P) :
  build fuel rfuel obj (Some visited) lazy doc = Some (Ok res, (visited', doc')) ->
  visited' = visited
  /\ (forall o on_return visited1 doc1,
        enter rfuel obj (visited, doc) = Some (Ok (o, on_return), (visited1, doc1)) ->
        (on_return = false /\ visited1 = visited)
        \/ (on_return = true /\ exists r, obj = Reference r /\ (r ∉ visited)
            /\ visited1 = visited ++ [r]
            /\ removelast visited1 = visited)).
Proof.
  intros Hb. split.
  - exact (build_restores fuel rfuel lazy obj visited doc res visited' doc' Hb).
  - intros o on_return visited1 doc1 He. apply enter_inv in He.
    destruct He as [(-> & -> & _) | (-> & r & Hobj & Hr & -> & _)].
    + left. split; reflexivity.
    + right. split; [reflexivity |]. exists r. repeat split; try assumption.
      apply removelast_last.
Qed.

(** When the resolution itself raises, the exception leaves [build] with
    the reference still in the list: the append comes before the
    resolution and the removal is not reached. *)
Lemma build_resolution_raises fuel rfuel r (visited : list IndirectReference) lazy
    (doc : PDFDocument P) e doc1 :
  r ∉ visited ->
  obj_by_ref rfuel (num r) (gen r) doc = Some (Raise e, doc1) ->
  build (1 + fuel) rfuel (Reference r) (Some visited) lazy doc
  = Some (Raise e, (visited ++ [r], doc1)).
Proof.
  intros Hr Hres. simpl. unfold bind at 1. unfold bind at 1.
  unfold visited_contains. rewrite bool_decide_eq_false_2 by exact Hr.
  unfold bind at 1. unfold visited_append. unfold bind at 1. unfold on_doc.
  rewrite Hres. reflexivity.
Qed.

End Visited.

Lemma build_leaves_visited_unchanged_witness :
  let visited := [mkIndirectReference 3 0] in
  let obj := Array [ref 1 0; ref 9 0; ref 3 0] in
  exists res doc',
    @build unit empty_source 4 2 obj (Some visited) false cycle_doc
    = Some (Ok res, (visited, doc'))
    /\ (forall o on_return visited1 doc1,
        @enter unit empty_source 2 obj (visited, cycle_doc)
        = Some (Ok (o, on_return), (visited1, doc1)) ->
        (on_return = false /\ visited1 = visited)
        \/ (on_return = true /\ exists r, obj = Reference r /\ (r ∉ visited)
            /\ visited1 = visited ++ [r]
            /\ removelast visited1 = visited)).
Proof.
  intros visited obj.
  destruct (@build unit empty_source 4 2 obj (Some visited) false cycle_doc)
    as [[[res|e] [visited' doc']]|] eqn:Hrun; try (vm_compute in Hrun; discriminate).
  exists res, doc'.
  destruct (@build_leaves_visited_unchanged unit empty_source 4 2 obj visited false
              cycle_doc res visited' doc' Hrun) as [-> Henter].
  split; [reflexivity | exact Henter].
Defined.

(** ** [build]: more fuel gives the same result *)

Section Fuel.
Context {P : Type} `{Collaborators P}.

Lemma build_body_refines (rec rec' : value -> M (list IndirectReference * PDFDocument P) value)
    (obj : value) (lazy : bool) :
  (forall o, refines (rec o) (rec' o)) ->
  refines (build_body rec obj lazy) (build_body rec' obj lazy).
Proof.
  intros Hrec.
  assert (Hitems : forall items : list (string * value),
             refines (comprehension (fun '(k, o) => o <- rec o ;; ret (k, o)) items)
                     (comprehension (fun '(k, o) => o <- rec' o ;; ret (k, o)) items)).
  { intros items. apply comprehension_refines. intros [k o].
    apply bind_refines; [apply Hrec |]. intros o'. apply refines_refl. }
  destruct obj; simpl; try apply refines_refl.
  - apply bind_refines; [apply comprehension_refines; exact Hrec |].
    intros items'. apply refines_refl.
  - apply bind_refines; [| intros items'; apply refines_refl].
    destruct lazy; simpl; [apply refines_refl | apply Hitems].
  - apply bind_refines; [| intros _; apply refines_refl].
    destruct lazy; simpl; [apply refines_refl |].
    apply bind_refines; [apply refines_refl |]. intros d.
    apply bind_refines; [apply Hitems |]. intros d'. apply refines_refl.
  - apply Hrec.
Qed.

Lemma build_refines_succ rfuel lazy fuel :
  forall obj,
    refines (fun '(visited, doc) => build fuel rfuel obj (Some visited) lazy doc)
            (fun '(visited, doc) => build (S fuel) rfuel obj (Some visited) lazy doc).
Proof.
  induction fuel as [|fuel IH]; intros obj [visited doc] r Hr; [discriminate |].
  revert Hr. cbn [build]. revert r. revert visited doc.
  assert (Hgoal : refines
    (entered <- enter rfuel obj ;;
     let '(obj, on_return) := entered in
     obj <- build_body
              (fun o '(visited, doc) => build fuel rfuel o (Some visited) lazy doc)
              obj lazy ;;
     leave on_return obj)
    (entered <- enter rfuel obj ;;
     let '(obj, on_return) := entered in
     obj <- build_body
              (fun o '(visited, doc) => build (S fuel) rfuel o (Some visited) lazy doc)
              obj lazy ;;
     leave on_return obj)).
  { apply bind_refines; [apply refines_refl |]. intros [o on_return].
    apply bind_refines; [| intros o'; apply refines_refl].
    apply build_body_refines. exact IH. }
  intros visited doc r Hr. exact (Hgoal (visited, doc) r Hr).
Qed.

Lemma build_refines_le rfuel lazy fuel fuel' :
  (fuel <= fuel')%nat ->
  forall obj,
    refines (fun '(visited, doc) => build fuel rfuel obj (Some visited) lazy doc)
            (fun '(visited, doc) => build fuel' rfuel obj (Some visited) lazy doc).
Proof.
  intros Hle. induction Hle as [|fuel' Hle IH]; intros obj.
  - apply refines_refl.
  - intros s r Hr. apply (build_refines_succ rfuel lazy fuel' obj s r).
    exact (IH obj s r Hr).
Qed.

End Fuel.

(** ** Induction on values *)

Lemma value_nested_ind (Q : value -> Prop) :
  Q null ->
  (forall b, Q (Boolean b)) ->
  (forall z, Q (Integer z)) ->
  (forall s, Q (Name s)) ->
  (forall s, Q (String_ s)) ->
  (forall items, Forall Q items -> Q (Array items)) ->
  (forall items, Forall (fun kv => Q (snd kv)) items -> Q (Dictionary items)) ->
  (forall a, Q (StreamAt a)) ->
  (forall r, Q (Reference r)) ->
  (forall n g v, Q v -> Q (IndirectObject n g v)) ->
  forall v, Q v.
Proof.
  intros Hnull Hbool Hint Hname Hstr Harr Hdict Hstream Href Hind.
  fix IH 1. intros [| b | z | s | s | items | items | a | r | n g v].
  - exact Hnull.
  - apply Hbool.
  - apply Hint.
  - apply Hname.
  - apply Hstr.
  - apply Harr. induction items as [|x items IHitems]; constructor.
    + apply IH.
    + exact IHitems.
  - apply Hdict. induction items as [|[k x] items IHitems]; constructor.
    + apply IH.
    + exact IHitems.
  - apply Hstream.
  - apply Href.
  - apply Hind. apply IH.
Qed.


(** ** [build] terminates on cyclic reference graphs *)

(** The references of [U] that are not yet in [visited]. *)
Definition pending (U visited : list IndirectReference) : nat :=
  length (List.filter (fun r => negb (bool_decide (r ∈ visited))) U).

Lemma pending_append_le U visited r :
  (pending U (visited ++ [r]) <= pending U visited)%nat.
Proof.
  unfold pending. induction U as [|x U IH]; simpl; [lia |].
  destruct (bool_decide (x ∈ visited)) eqn:Hx.
  - apply bool_decide_eq_true in Hx.
    rewrite bool_decide_eq_true_2 by (apply elem_of_app; left; exact Hx).
    simpl. exact IH.
  - destruct (bool_decide (x ∈ visited ++ [r])); simpl; lia.
Qed.

Lemma pending_append_lt U visited r :
  r ∈ U -> r ∉ visited -> (pending U (visited ++ [r]) < pending U visited)%nat.
Proof.
  intros HU Hr. unfold pending. induction U as [|x U IH]; [inversion HU |].
  simpl. destruct (decide (x = r)) as [->|Hne].
  - rewrite (bool_decide_eq_false_2 (r ∈ visited)) by exact Hr.
    rewrite bool_decide_eq_true_2 by (apply elem_of_app; right; left).
    simpl. assert (Hle := pending_append_le U visited r). unfold pending in Hle. lia.
  - assert (HU' : r ∈ U).
    { apply elem_of_cons in HU. destruct HU as [->|HU]; [congruence | exact HU]. }
    specialize (IH HU').
    destruct (bool_decide (x ∈ visited)) eqn:Hx.
    + apply bool_decide_eq_true in Hx.
      rewrite bool_decide_eq_true_2 by (apply elem_of_app; left; exact Hx).
      simpl. exact IH.
    + destruct (bool_decide (x ∈ visited ++ [r])); simpl; lia.
Qed.

(** The document is finite for the resolution engine: on every document
    that satisfies [Inv], resolving a reference returns a value and keeps
    [Inv]; the value is one that [build] traverses without assigning to a
    Stream object; and outside the finite list [U] of references the value
    is one into which [build] does not descend. *)
Definition finite_document {P : Type} `{Collaborators P} (rfuel : nat) (lazy : bool)
    (Inv : PDFDocument P -> Prop) (U : list IndirectReference) : Prop :=
  forall (r : IndirectReference) (doc : PDFDocument P),
    Inv doc ->
    exists v doc',
      obj_by_ref rfuel (num r) (gen r) doc = Some (Ok v, doc')
      /\ Inv doc'
      /\ assignment_free lazy v = true
      /\ (r ∉ U -> children lazy v = []).

Section CycleSafety.
Context {P : Type} `{Collaborators P}.
Variable rfuel : nat.
Variable lazy : bool.
Variable Inv : PDFDocument P -> Prop.
Variable U : list IndirectReference.
Hypothesis Hfinite : finite_document rfuel lazy Inv U.

Lemma comprehension_total {A B}
    (f : nat -> A -> M (list IndirectReference * PDFDocument P) B)
    (visited : list IndirectReference) (items : list A) :
  (forall n m x, (n <= m)%nat -> refines (f n x) (f m x)) ->
  (forall x, x ∈ items -> forall doc, Inv doc ->
     exists fuel b doc', f fuel x (visited, doc) = Some (Ok b, (visited, doc')) /\ Inv doc') ->
  forall doc, Inv doc ->
    exists fuel bs doc',
      comprehension (f fuel) items (visited, doc) = Some (Ok bs, (visited, doc'))
      /\ Inv doc'.
Proof.
  intros Hmono. induction items as [|x items IH]; intros Hitems doc Hinv.
  - exists 0%nat, [], doc. split; [reflexivity | exact Hinv].
  - destruct (Hitems x (list_elem_of_here x items) doc Hinv) as (fuel1 & b & doc1 & Hx & Hinv1).
    destruct (IH (fun y Hy => Hitems y (list_elem_of_further y x items Hy)) doc1 Hinv1)
      as (fuel2 & bs & doc2 & Hxs & Hinv2).
    exists (Nat.max fuel1 fuel2), (b :: bs), doc2. split; [| exact Hinv2].
    simpl.
    rewrite (bind_Ok _ _ _ _ _ (Hmono fuel1 (Nat.max fuel1 fuel2) x (Nat.le_max_l _ _) _ _ Hx)).
    assert (Hxs' : comprehension (f (Nat.max fuel1 fuel2)) items (visited, doc1)
                   = Some (Ok bs, (visited, doc2))).
    { apply (comprehension_refines (f fuel2) (f (Nat.max fuel1 fuel2)) items); [| exact Hxs].
      intros y. apply Hmono. apply Nat.le_max_r. }
    rewrite (bind_Ok _ _ _ _ _ Hxs'). reflexivity.
Qed.

(** [build] on [o] with this [visited] returns and restores the list. *)
Definition total_at (visited : list IndirectReference) (o : value) : Prop :=
  forall doc, Inv doc ->
    exists fuel res doc',
      build fuel rfuel o (Some visited) lazy doc = Some (Ok res, (visited, doc'))
      /\ Inv doc'.

Lemma build_body_total (visited : list IndirectReference) (v : value) :
  assignment_free lazy v = true ->
  (forall o, o ∈ children lazy v -> total_at visited o) ->
  forall doc, Inv doc ->
    exists fuel res doc',
      build_body (fun o '(visited, doc) => build fuel rfuel o (Some visited) lazy doc)
        v lazy (visited, doc)
      = Some (Ok res, (visited, doc'))
      /\ Inv doc'.
Proof.
  intros Hfree Hch doc Hinv.
  destruct v as [| b | z | s | s | items | items | a | r | n g val];
    try (exists 0%nat; eexists; exists doc; split; [reflexivity | exact Hinv]).
  - (* Array *)
    destruct (comprehension_total
                (fun fuel o '(visited, doc) => build fuel rfuel o (Some visited) lazy doc)
                visited items) with (doc := doc) as (fuel & bs & doc' & Hc & Hinv').
    + intros n m x Hle. apply build_refines_le. exact Hle.
    + intros x Hx. apply Hch. exact Hx.
    + exact Hinv.
    + exists fuel, (Array bs), doc'. split; [| exact Hinv'].
      simpl. rewrite (bind_Ok _ _ _ _ _ Hc). reflexivity.
  - (* Dictionary *)
    destruct lazy eqn:Hlazy.
    + exists 0%nat. eexists. exists doc. split; [| exact Hinv]. simpl. reflexivity.
    + destruct (comprehension_total
                  (fun fuel (kv : string * value) =>
                     let '(k, o) := kv in
                     o <- (fun '(visited, doc) => build fuel rfuel o (Some visited) false doc) ;;
                     ret (k, o))
                  visited items) with (doc := doc) as (fuel & bs & doc' & Hc & Hinv').
      * intros n m [k o] Hle. apply bind_refines; [| intros o'; apply refines_refl].
        apply (build_refines_le rfuel false n m Hle o).
      * intros [k o] Hx doc0 Hinv0.
        destruct (Hch o) with (doc := doc0) as (fuel & res & doc1 & Hb & Hinv1).
        { simpl. apply list_elem_of_fmap. exists (k, o). split; [reflexivity | exact Hx]. }
        { exact Hinv0. }
        exists fuel, (k, res), doc1. split; [| exact Hinv1].
        rewrite Hlazy in Hb. unfold bind. rewrite Hb. reflexivity.
      * exact Hinv.
      * exists fuel. eexists. exists doc'. split; [| exact Hinv'].
        simpl. unfold bind at 1.
        match goal with
        | |- context [comprehension ?f items (visited, doc)] =>
            replace (comprehension f items (visited, doc))
              with (Some (Ok bs, (visited, doc')) : option (result exn _ * _))
        end.
        all: try (rewrite <- Hc); reflexivity.
  - (* Stream *)
    unfold assignment_free in Hfree. simpl in Hfree. rewrite orb_false_r in Hfree.
    exists 0%nat. eexists. exists doc. split; [| exact Hinv].
    rewrite Hfree. simpl. reflexivity.
  - (* IndirectObject *)
    destruct (Hch val) with (doc := doc) as (fuel & res & doc' & Hb & Hinv').
    + simpl. left.
    + exact Hinv.
    + exists fuel, res, doc'. split; [exact Hb | exact Hinv'].
Qed.

Lemma assignment_free_children (v o : value) :
  assignment_free lazy v = true -> o ∈ children lazy v -> assignment_free lazy o = true.
Proof.
  unfold assignment_free. destruct lazy; [reflexivity |]. simpl.
  destruct v; simpl; intros Hv Ho; try (inversion Ho; fail).
  - rewrite forallb_forall in Hv. apply Hv. apply list_elem_of_In. exact Ho.
  - apply list_elem_of_fmap in Ho. destruct Ho as ([k x] & -> & Hx).
    rewrite forallb_forall in Hv. apply (Hv (k, x)). apply list_elem_of_In. exact Hx.
  - apply list_elem_of_singleton in Ho. subst o. exact Hv.
Qed.

(** After lines 56-61 left the value unchanged: lines 63-81. *)
Lemma build_plain (visited : list IndirectReference) (v : value) :
  (forall r, v <> Reference r) ->
  assignment_free lazy v = true ->
  (forall o, o ∈ children lazy v -> total_at visited o) ->
  total_at visited v.
Proof.
  intros Hnr Hfree Hch doc Hinv.
  destruct (build_body_total visited v Hfree Hch doc Hinv) as (fuel & res & doc' & Hb & Hinv').
  exists (S fuel), res, doc'. split; [| exact Hinv'].
  cbn [build].
  assert (He : enter rfuel v (visited, doc) = Some (Ok (v, false), (visited, doc)))
    by (destruct v; try reflexivity; exfalso; eapply Hnr; reflexivity).
  rewrite (bind_Ok _ _ _ _ _ He). cbv beta iota.
  rewrite (bind_Ok _ _ _ _ _ Hb). reflexivity.
Qed.

Lemma build_total_aux :
  forall n visited,
    (pending U visited < n)%nat ->
    forall v, assignment_free lazy v = true -> total_at visited v.
Proof.
  induction n as [|n IHn]; intros visited Hp; [lia |].
  intros v. induction v using value_nested_ind; intros Hfree.
  1-5, 8: apply build_plain; [discriminate | exact Hfree | intros o Ho; inversion Ho].
  - (* Array *)
    apply build_plain; [discriminate | exact Hfree |].
    intros o Ho. simpl in Ho.
    rewrite Forall_forall in H0. apply (H0 o Ho).
    exact (assignment_free_children (Array items) o Hfree Ho).
  - (* Dictionary *)
    apply build_plain; [discriminate | exact Hfree |].
    intros o Ho.
    assert (Hfo := assignment_free_children (Dictionary items) o Hfree Ho).
    simpl in Ho. destruct lazy; [inversion Ho |].
    apply list_elem_of_fmap in Ho. destruct Ho as ([k x] & -> & Hx).
    rewrite Forall_forall in H0. apply (H0 (k, x) Hx). exact Hfo.
  - (* Reference *)
    intros doc Hinv. destruct (decide (r ∈ visited)) as [Hin|Hnin].
    + exists 1%nat, (Reference r), doc. split; [| exact Hinv].
      cbn [build]. unfold bind at 1. simpl. unfold bind at 1. unfold visited_contains.
      rewrite bool_decide_eq_true_2 by exact Hin. reflexivity.
    + destruct (Hfinite r doc Hinv) as (v & doc1 & Hres & Hinv1 & Hfv & Hleaf).
      assert (Hch : forall o, o ∈ children lazy v -> total_at (visited ++ [r]) o).
      { destruct (decide (r ∈ U)) as [HU|HU].
        - intros o Ho. apply IHn.
          + assert (Hlt := pending_append_lt U visited r HU Hnin). lia.
          + exact (assignment_free_children v o Hfv Ho).
        - rewrite (Hleaf HU). intros o Ho. inversion Ho. }
      destruct (build_body_total (visited ++ [r]) v Hfv Hch doc1 Hinv1)
        as (fuel & res & doc' & Hb & Hinv').
      exists (S fuel), res, doc'. split; [| exact Hinv'].
      cbn [build].
      assert (He : enter rfuel (Reference r) (visited, doc)
                   = Some (Ok (v, true), (visited ++ [r], doc1))).
      { simpl. unfold bind at 1. unfold visited_contains.
        rewrite bool_decide_eq_false_2 by exact Hnin.
        unfold bind at 1. unfold visited_append. unfold bind at 1. unfold on_doc.
        rewrite Hres. reflexivity. }
      rewrite (bind_Ok _ _ _ _ _ He). cbv beta iota.
      rewrite (bind_Ok _ _ _ _ _ Hb).
      unfold leave, bind, visited_pop.
      destruct (visited ++ [r]) as [|x l] eqn:Hl.
      { destruct visited; discriminate. }
      rewrite <- Hl. rewrite removelast_last. reflexivity.
  - (* IndirectObject *)
    apply build_plain; [discriminate | exact Hfree |].
    intros o Ho. simpl in Ho. apply list_elem_of_singleton in Ho. subst o.
    apply IHv. exact (assignment_free_children (IndirectObject n0 g v) v Hfree (list_elem_of_here _ _)).
Qed.

End CycleSafety.



(** The sample document with the self-referential dictionary is finite for
    the resolution engine: object 1 stays what it is and every other key is
    unregistered or null. *)
Definition cycle_doc_invariant (doc : PDFDocument unit) : Prop :=
  trailer doc = trailer cycle_doc
  /\ registry doc !! (1, 0) = Some (Dictionary [("Self"%string, ref 1 0)])
  /\ forall k, k <> (1, 0) -> registry doc !! k = None \/ registry doc !! k = Some null.

Lemma cycle_doc_invariant_holds : cycle_doc_invariant cycle_doc.
Proof.
  split; [reflexivity |]. split; [reflexivity |].
  intros k Hk. left. unfold cycle_doc; simpl. apply lookup_singleton_ne. congruence.
Qed.

(** Over the source with nothing left to read and a document without index
    sections, [locate_object] returns the registered entry, or registers
    null and returns it. *)
Lemma locate_object_empty_source num gen (doc : PDFDocument unit) :
  xrefs (trailer doc) = [] ->
  @locate_object unit empty_source 2 num gen doc
  = match registry doc !! (num, gen) with
    | Some v => Some (Ok v, doc)
    | None =>
        Some (Ok null,
              set_registry
                (absorb doc (mkParseOutcome [] (brute_force_state doc) (streams doc) None))
                (Registry_register (registry doc) num gen null))
    end.
Proof.
  intros Hx. cbn [locate_object]. rewrite Hx. cbn [xref_loop].
  unfold bind at 1. unfold ret at 1.
  unfold bind at 1. cbn [brute_force_loop]. unfold Registry_is_registered.
  destruct (registry doc !! (num, gen)) as [v|] eqn:Hk.
  - unfold Registry_get. rewrite Hk. reflexivity.
  - unfold next_brute_force_object. simpl.
    unfold Registry_get. rewrite Registry_register_fresh by exact Hk. reflexivity.
Qed.

Lemma cycle_doc_finite :
  @finite_document unit empty_source 2 false cycle_doc_invariant [mkIndirectReference 1 0].
Proof.
  intros [n g] doc (Ht & H1 & Hother). simpl.
  unfold obj_by_ref, bind. rewrite locate_object_empty_source by (rewrite Ht; reflexivity).
  destruct (registry doc !! (n, g)) as [v|] eqn:Hk.
  - (* the key is registered *)
    exists v, doc. split; [reflexivity |]. split; [repeat split; assumption |].
    destruct (decide ((n, g) = (1, 0))) as [Heq|Hne].
    + injection Heq as -> ->. rewrite H1 in Hk. injection Hk as <-.
      split; [reflexivity |]. intros Hnot. exfalso. apply Hnot. left.
    + destruct (Hother _ Hne) as [Hn|Hs]; [congruence |].
      rewrite Hs in Hk. injection Hk as <-. split; [reflexivity | intros _; reflexivity].
  - (* the key is not registered: the scan fails and null is registered *)
    assert (Hne : (n, g) <> (1, 0)) by (intros Heq; injection Heq as -> ->; congruence).
    eexists null, _. split; [reflexivity |]. split.
    + split; [exact Ht |]. simpl. split.
      * apply Registry_register_keeps. exact H1.
      * intros k Hk1. destruct (decide (k = (n, g))) as [->|Hkn].
        -- right. apply Registry_register_fresh. exact Hk.
        -- rewrite Registry_register_other by exact Hkn. apply Hother. exact Hk1.
    + split; [reflexivity | intros _; reflexivity].
Qed.


(** The example of the specification, evaluated: object 1 is a dictionary
    that refers to object 1.  Eager [build] of a reference to it returns the
    dictionary with the inner reference left unresolved, and the list and
    the document are as before. *)
Example build_self_reference :
  @build unit empty_source 3 2 (ref 1 0) None false cycle_doc
  = Some (Ok (Dictionary [("Self"%string, ref 1 0)]), ([], cycle_doc)).
Proof. vm_compute. reflexivity. Qed.

(** A cycle through two arrays, and a reference met twice on different
    paths: the second occurrence is expanded again, the one on the cycle is
    not. *)
Example build_mutual_reference :
  let doc :=
    mkPDFDocument
      {[ (1, 0) := Array [ref 2 0; ref 2 0]; (2, 0) := Array [ref 1 0; Integer 3] ]}
      tt (mkTrailer [] (mkIndirectReference 1 0)) tt ∅ in
  @build unit empty_source 4 2 (ref 1 0) None true doc
  = Some (Ok (Array [Array [ref 1 0; Integer 3]; Array [ref 1 0; Integer 3]]), ([], doc)).
Proof. vm_compute. reflexivity. Qed.


(** Why the termination theorem sets Stream objects aside in eager mode.  With
    the factory that hands the registry's own Stream object back, the
    assignment of line 72 stores resolved objects in it.  One eager [build]
    over the two Stream objects that refer to each other returns, and
    leaves each holding the other directly, with no reference in between;
    from then on an eager [build] that reaches either of them never meets
    the guard on [visited] and returns for no amount of fuel. *)
Example build_ties_stream_pair :
  exists doc',
    @build unit empty_source 6 2 (Array [ref 2 0; ref 1 0]) None false stream_pair_doc
    = Some (Ok (Array [StreamAt 1; StreamAt 0]), ([], doc'))
    /\ streams doc' = streams stream_knot_doc
    /\ registry doc' = registry stream_knot_doc.
Proof. eexists. split; [vm_compute; reflexivity | split; reflexivity]. Qed.

Lemma bind_None {S A B} (m : M S A) (k : A -> M S B) s :
  m s = None -> bind m k s = None.
Proof. intros Hm. unfold bind. rewrite Hm. reflexivity. Qed.

Lemma build_stream_knot_no_return (fuel : nat) :
  forall visited,
    @build unit empty_source fuel 2 (StreamAt 0) (Some visited) false stream_knot_doc = None
    /\ @build unit empty_source fuel 2 (StreamAt 1) (Some visited) false stream_knot_doc = None.
Proof.
  induction fuel as [|fuel IH]; intros visited; [split; reflexivity |].
  destruct (IH visited) as [IH0 IH1].
  split; cbn [build].
  - rewrite (bind_Ok _ _ _ (StreamAt 0, false) (visited, stream_knot_doc)) by reflexivity.
    cbv beta iota. apply bind_None. cbn [build_body negb]. apply bind_None.
    rewrite (bind_Ok _ _ _ [("X"%string, StreamAt 1)] (visited, stream_knot_doc))
      by reflexivity.
    apply bind_None. cbn [comprehension]. apply bind_None. cbv beta iota.
    apply bind_None. exact IH1.
  - rewrite (bind_Ok _ _ _ (StreamAt 1, false) (visited, stream_knot_doc)) by reflexivity.
    cbv beta iota. apply bind_None. cbn [build_body negb]. apply bind_None.
    rewrite (bind_Ok _ _ _ [("Y"%string, StreamAt 0)] (visited, stream_knot_doc))
      by reflexivity.
    apply bind_None. cbn [comprehension]. apply bind_None. cbv beta iota.
    apply bind_None. exact IH0.
Qed.

(** A reference to the first of the two is resolved, the guard lets it
    through, and the traversal of the object does not return. *)
Lemma build_stream_knot_reference_no_return (fuel : nat) :
  @build unit empty_source fuel 2 (ref 1 0) None false stream_knot_doc = None.
Proof.
  destruct fuel as [|fuel]; [reflexivity |].
  cbn [build].
  rewrite (bind_Ok _ _ _ (StreamAt 0, true) ([mkIndirectReference 1 0], stream_knot_doc))
    by (vm_compute; reflexivity).
  cbv beta iota. apply bind_None.
  cbn [build_body negb]. apply bind_None.
  rewrite (bind_Ok _ _ _ [("X"%string, StreamAt 1)]
             ([mkIndirectReference 1 0], stream_knot_doc)) by reflexivity.
  apply bind_None. cbn [comprehension]. apply bind_None. cbv beta iota.
  apply bind_None.
  destruct (build_stream_knot_no_return fuel [mkIndirectReference 1 0]) as [_ H1].
  exact H1.
Qed.


(** After the two Stream objects are tied, what is left of an eager
    traversal that still has a reference to one of them to resolve. *)
Lemma build_after_stream_pair_tied (fuel : nat) :
  @build unit empty_source (5 + fuel) 2 (ref 2 0) (Some []) false stream_pair_doc
  = Some (Ok (StreamAt 1),
          ([], mkPDFDocument (registry stream_pair_doc) tt (trailer stream_pair_doc) tt
                 {[ 0%nat := mkStream [("X"%string, ref 2 0)] [];
                    1%nat := mkStream [("Y"%string, StreamAt 0)] [] ]}))
  /\ @build unit empty_source (5 + fuel) 2 (ref 1 0) (Some []) false
       (mkPDFDocument (registry stream_pair_doc) tt (trailer stream_pair_doc) tt
          {[ 0%nat := mkStream [("X"%string, ref 2 0)] [];
             1%nat := mkStream [("Y"%string, StreamAt 0)] [] ]})
     = Some (Ok (StreamAt 0), ([], stream_knot_doc)).
Proof.
  split.
  - apply (@build_refines_le unit empty_source 2 false 5 (5 + fuel) ltac:(lia) (ref 2 0) ([], _)).
    vm_compute. reflexivity.
  - apply (@build_refines_le unit empty_source 2 false 5 (5 + fuel) ltac:(lia) (ref 1 0) ([], _)).
    vm_compute. reflexivity.
Qed.


(* ===================================================================== *)
(** * Further properties of document.py *)
(* ===================================================================== *)

(** ** What [locate_object], [obj_by_ref] and [build] preserve

    A relation between the document before and after a step that holds
    across the parser operations, the registration of a null and, when
    [build] is eager, the assignment of a Stream object's dictionary, holds
    across every call, whatever its outcome. *)

Section Preserved.
Context {P : Type} `{Collaborators P}.
Variable Rel : PDFDocument P -> PDFDocument P -> Prop.
Variable lazy : bool.
Hypothesis Rel_refl : forall doc, Rel doc doc.
Hypothesis Rel_trans : forall d1 d2 d3, Rel d1 d2 -> Rel d2 d3 -> Rel d1 d3.
Hypothesis Rel_parse_at : forall offset doc r doc',
  parse_at offset doc = Some (r, doc') -> Rel doc doc'.
Hypothesis Rel_next : forall doc r doc',
  next_brute_force_object doc = Some (r, doc') -> Rel doc doc'.
Hypothesis Rel_null : forall doc n g,
  Rel doc (set_registry doc (Registry_register (registry doc) n g null)).
Hypothesis Rel_assign : forall a d doc r doc',
  lazy = false -> set_dictionary a d doc = Some (r, doc') -> Rel doc doc'.

Definition preserving {A} (m : M (PDFDocument P) A) : Prop :=
  forall doc r doc', m doc = Some (r, doc') -> Rel doc doc'.

Lemma bind_preserving {A B} (m : M (PDFDocument P) A) (k : A -> M (PDFDocument P) B) :
  preserving m -> (forall a, preserving (k a)) -> preserving (bind m k).
Proof.
  intros Hm Hk doc r doc' Hb.
  destruct (bind_inv _ _ _ _ _ Hb) as [(e & Hme & _) | (a & d1 & Hma & Hka)].
  - exact (Hm _ _ _ Hme).
  - exact (Rel_trans _ _ _ (Hm _ _ _ Hma) (Hk _ _ _ _ Hka)).
Qed.

Lemma pure_preserving {A} (f : PDFDocument P -> result exn A) :
  preserving (fun doc => Some (f doc, doc)).
Proof. intros doc r doc' Hr. injection Hr as _ <-. apply Rel_refl. Qed.

Lemma xref_loop_preserving locate num gen xs :
  (forall n g, preserving (locate n g)) -> preserving (xref_loop locate num gen xs).
Proof.
  intros Hloc. induction xs as [|xref xs IH]; simpl.
  - apply (pure_preserving (fun _ => Ok tt)).
  - apply bind_preserving.
    + destruct (in_use xref !! num) as [xre|]; [| apply (pure_preserving (fun _ => Ok false))].
      destruct (generation xre =? gen); [| apply (pure_preserving (fun _ => Ok false))].
      apply bind_preserving; [exact (Rel_parse_at _) |].
      intros _. apply (pure_preserving (fun doc => Ok (Registry_is_registered (registry doc) num gen))).
    + intros [|]; [apply (pure_preserving (fun _ => Ok tt)) |].
      apply bind_preserving.
      * destruct (compressed xref !! num) as [xre|];
          [| apply (pure_preserving (fun _ => Ok false))].
        destruct (c_generation xre =? gen); [| apply (pure_preserving (fun _ => Ok false))].
        apply bind_preserving; [apply Hloc |].
        intros _.
        apply (pure_preserving (fun doc => Ok (Registry_is_registered (registry doc) num gen))).
      * intros [|]; [apply (pure_preserving (fun _ => Ok tt)) | exact IH].
Qed.

Lemma brute_force_loop_preserving fuel num gen : preserving (brute_force_loop fuel num gen).
Proof.
  induction fuel as [|fuel IH]; intros doc r doc' Hr; simpl in Hr.
  - destruct (Registry_is_registered (registry doc) num gen); [| discriminate].
    injection Hr as _ <-. apply Rel_refl.
  - destruct (Registry_is_registered (registry doc) num gen).
    { injection Hr as _ <-. apply Rel_refl. }
    destruct (next_brute_force_object doc) as [[[obj|e] d1]|] eqn:Hn; [| | discriminate].
    + exact (Rel_trans _ _ _ (Rel_next _ _ _ Hn) (IH _ _ _ Hr)).
    + assert (Hg := Rel_next _ _ _ Hn).
      destruct e; injection Hr as _ <-; try exact Hg.
      exact (Rel_trans _ _ _ Hg (Rel_null _ _ _)).
Qed.

Lemma locate_object_preserving fuel : forall num gen, preserving (locate_object fuel num gen).
Proof.
  induction fuel as [|fuel IH]; intros num gen doc r doc' Hr; simpl in Hr; [discriminate |].
  revert Hr. generalize (xrefs (trailer doc)). intros xs Hr.
  revert doc r doc' Hr. fold (preserving (A := value)).
  apply bind_preserving; [apply xref_loop_preserving; exact IH |].
  intros _. apply bind_preserving; [apply brute_force_loop_preserving |].
  intros _. apply (pure_preserving (fun doc => Registry_get (registry doc) num gen)).
Qed.

Lemma obj_by_ref_preserving fuel num gen : preserving (obj_by_ref fuel num gen).
Proof.
  unfold obj_by_ref. apply bind_preserving; [apply locate_object_preserving |].
  intros obj. apply (pure_preserving (fun doc => Ok (obj_factory doc obj))).
Qed.

Definition frame_preserving {A} (m : M (list IndirectReference * PDFDocument P) A) : Prop :=
  forall visited doc r visited' doc',
    m (visited, doc) = Some (r, (visited', doc')) -> Rel doc doc'.

Lemma bind_frame_preserving {A B} (m : M (list IndirectReference * PDFDocument P) A)
    (k : A -> M (list IndirectReference * PDFDocument P) B) :
  frame_preserving m -> (forall a, frame_preserving (k a)) -> frame_preserving (bind m k).
Proof.
  intros Hm Hk visited doc r visited' doc' Hb.
  destruct (bind_inv _ _ _ _ _ Hb) as [(e & Hme & _) | (a & [v1 d1] & Hma & Hka)].
  - exact (Hm _ _ _ _ _ Hme).
  - exact (Rel_trans _ _ _ (Hm _ _ _ _ _ Hma) (Hk _ _ _ _ _ _ Hka)).
Qed.

Lemma ret_frame_preserving {A} (a : A) : frame_preserving (ret a).
Proof. intros visited doc r visited' doc' Hr. injection Hr as _ _ <-. apply Rel_refl. Qed.

Lemma on_doc_frame_preserving {A} (m : M (PDFDocument P) A) :
  preserving m -> frame_preserving (on_doc m).
Proof.
  intros Hm visited doc r visited' doc' Hr. apply on_doc_inv in Hr.
  destruct Hr as [_ Hr]. exact (Hm _ _ _ Hr).
Qed.

Lemma comprehension_frame_preserving {A B}
    (f : A -> M (list IndirectReference * PDFDocument P) B) (l : list A) :
  (forall x, frame_preserving (f x)) -> frame_preserving (comprehension f l).
Proof.
  intros Hf. induction l as [|x l IH]; simpl.
  - apply ret_frame_preserving.
  - apply bind_frame_preserving; [apply Hf |]. intros y.
    apply bind_frame_preserving; [exact IH |]. intros ys. apply ret_frame_preserving.
Qed.

Lemma enter_frame_preserving rfuel obj : frame_preserving (enter rfuel obj).
Proof.
  destruct obj; simpl; try apply ret_frame_preserving.
  apply bind_frame_preserving.
  - intros visited doc r visited' doc' Hr. injection Hr as _ _ <-. apply Rel_refl.
  - intros [|]; [apply ret_frame_preserving |].
    apply bind_frame_preserving.
    + intros visited doc r visited' doc' Hr. injection Hr as _ _ <-. apply Rel_refl.
    + intros _. apply bind_frame_preserving;
        [apply on_doc_frame_preserving, obj_by_ref_preserving |].
      intros o. apply ret_frame_preserving.
Qed.

Lemma leave_frame_preserving on_return obj : frame_preserving (leave on_return obj).
Proof.
  unfold leave. apply bind_frame_preserving; [| intros _; apply ret_frame_preserving].
  destruct on_return; [| apply ret_frame_preserving].
  intros visited doc r visited' doc' Hr. unfold visited_pop in Hr.
  destruct visited; injection Hr as _ _ <-; apply Rel_refl.
Qed.

Lemma build_body_frame_preserving
    (rec : value -> M (list IndirectReference * PDFDocument P) value) (obj : value) :
  (forall o, frame_preserving (rec o)) -> frame_preserving (build_body rec obj lazy).
Proof.
  intros Hrec.
  assert (Hitems : forall items : list (string * value),
             frame_preserving
               (comprehension (fun '(k, o) => o <- rec o ;; ret (k, o)) items)).
  { intros items. apply comprehension_frame_preserving. intros [k o].
    apply bind_frame_preserving; [apply Hrec |]. intros o'. apply ret_frame_preserving. }
  assert (Hfactory : forall o, frame_preserving (on_doc (factory o))).
  { intros o. apply on_doc_frame_preserving.
    apply (pure_preserving (fun doc => Ok (obj_factory doc o))). }
  destruct obj; simpl; try apply ret_frame_preserving.
  - apply bind_frame_preserving; [apply comprehension_frame_preserving; exact Hrec |].
    intros items'. apply ret_frame_preserving.
  - apply bind_frame_preserving; [| intros items'; apply Hfactory].
    destruct lazy; simpl; [apply ret_frame_preserving | apply Hitems].
  - apply bind_frame_preserving; [| intros _; apply Hfactory].
    destruct lazy eqn:Hlazy; simpl; [apply ret_frame_preserving |].
    apply bind_frame_preserving.
    + apply on_doc_frame_preserving. intros doc r doc' Hr. unfold get_dictionary in Hr.
      destruct (streams doc !! addr); injection Hr as _ <-; apply Rel_refl.
    + intros d. apply bind_frame_preserving; [apply Hitems |].
      intros d'. apply on_doc_frame_preserving.
      intros doc r doc' Hr. exact (Rel_assign _ _ _ _ _ eq_refl Hr).
  - apply Hrec.
Qed.

Lemma build_frame_preserving fuel rfuel :
  forall obj visited doc r visited' doc',
    build fuel rfuel obj visited lazy doc = Some (r, (visited', doc')) -> Rel doc doc'.
Proof.
  induction fuel as [|fuel IH]; intros obj visited doc r visited' doc' Hb; [discriminate |].
  cbn [build] in Hb. revert Hb.
  generalize (match visited with None => [] | Some visited0 => visited0 end).
  intros visited0.
  revert visited0 doc r visited' doc'. fold (frame_preserving (A := value)).
  apply bind_frame_preserving; [apply enter_frame_preserving |].
  intros [o on_return].
  apply bind_frame_preserving; [| intros o'; apply leave_frame_preserving].
  apply build_body_frame_preserving.
  intros o0 visited1 doc1 r1 visited1' doc1' Hr. exact (IH _ _ _ _ _ _ Hr).
Qed.

End Preserved.


(** ** The registry, the Stream objects and the brute-force cursor across
       a call *)

(** The parser creates Stream objects and leaves the existing ones as they
    are. *)
Definition parser_keeps_streams {P : Type} `{Collaborators P} : Prop :=
  forall (p : P) (reg : Registry) (h : gmap nat Stream) (a : nat) (s : Stream),
    h !! a = Some s ->
    po_streams (parser_indirect_object p reg h) !! a = Some s
    /\ po_streams (parser_body_element p reg h) !! a = Some s.

Section AcrossCalls.
Context {P : Type} `{Collaborators P}.

(** X15.  [build] never removes or replaces a registry entry and never touches
    the trailer, whether it returns or raises: the entries it finds are
    still there with the same values, for either value of [lazy]. *)
Theorem build_keeps_registry_entries (fuel rfuel : nat) (obj : value)
    (visited : option (list IndirectReference)) (lazy : bool) (doc : PDFDocument P)
    (r : result exn value) (visited' : list IndirectReference) (doc' : PDFDocument P) :
  build fuel rfuel obj visited lazy doc = Some (r, (visited', doc')) ->
  trailer doc' = trailer doc
  /\ forall k v, registry doc !! k = Some v -> registry doc' !! k = Some v.
Proof.
  intros Hb.
  refine (build_frame_preserving grows lazy grows_refl grows_trans _ _ _ _
            fuel rfuel obj visited doc r visited' doc' Hb).
  - intros offset d r0 d' Hr. exact (parse_at_growing offset d r0 d' Hr).
  - exact next_brute_force_object_growing.
  - intros d n g. apply set_registry_register_grows.
  - intros a dict d r0 d' _ Hr. unfold set_dictionary in Hr.
    destruct (streams d !! a); injection Hr as _ <-;
      [split; [reflexivity | intros k v Hk; exact Hk] | apply grows_refl].
Qed.

Lemma absorb_streams (doc : PDFDocument P) (o : ParseOutcome P) :
  streams (absorb doc o) = po_streams o.
Proof. reflexivity. Qed.

(** X16.  When the parser leaves existing Stream objects alone, [build] never
    alters the payload of a Stream object and never drops one, for either
    value of [lazy] and for every outcome; and a lazy [build] leaves every
    Stream object exactly as it was, dictionary included. *)
Theorem build_keeps_stream_payloads (fuel rfuel : nat) (obj : value)
    (visited : option (list IndirectReference)) (lazy : bool) (doc : PDFDocument P)
    (r : result exn value) (visited' : list IndirectReference) (doc' : PDFDocument P) :
  parser_keeps_streams ->
  build fuel rfuel obj visited lazy doc = Some (r, (visited', doc')) ->
  (forall a s, streams doc !! a = Some s ->
     exists s', streams doc' !! a = Some s' /\ stream s' = stream s)
  /\ (lazy = true -> forall a s, streams doc !! a = Some s -> streams doc' !! a = Some s).
Proof.
  intros Hkeep Hb. split.
  - refine (build_frame_preserving
              (fun d d' => forall a s, streams d !! a = Some s ->
                 exists s', streams d' !! a = Some s' /\ stream s' = stream s)
              lazy _ _ _ _ _ _ fuel rfuel obj visited doc r visited' doc' Hb).
    + intros d a s Hs. eauto.
    + intros d1 d2 d3 H12 H23 a s Hs.
      destruct (H12 a s Hs) as (s2 & Hs2 & Hp2).
      destruct (H23 a s2 Hs2) as (s3 & Hs3 & Hp3). exists s3. split; congruence.
    + intros offset d r0 d' Hr a s Hs. injection Hr as _ <-.
      exists s. split; [| reflexivity]. rewrite absorb_streams. apply Hkeep. exact Hs.
    + intros d r0 d' Hr a s Hs. unfold next_brute_force_object in Hr.
      exists s. split; [| reflexivity].
      destruct (po_result _); injection Hr as _ <-; simpl; apply Hkeep; exact Hs.
    + intros d n g a s Hs. exists s. split; [exact Hs | reflexivity].
    + intros a0 dict d r0 d' _ Hr a s Hs. unfold set_dictionary in Hr.
      destruct (streams d !! a0) as [s0|] eqn:Ha0; injection Hr as _ <-; [| eauto].
      simpl. destruct (decide (a0 = a)) as [->|Hne].
      * rewrite lookup_insert_eq. eexists. split; [reflexivity |]. simpl. congruence.
      * rewrite lookup_insert_ne by exact Hne. eauto.
  - intros ->.
    refine (build_frame_preserving
              (fun d d' => forall a s, streams d !! a = Some s -> streams d' !! a = Some s)
              true _ _ _ _ _ _ fuel rfuel obj visited doc r visited' doc' Hb).
    + intros d a s Hs. exact Hs.
    + intros d1 d2 d3 H12 H23 a s Hs. exact (H23 a s (H12 a s Hs)).
    + intros offset d r0 d' Hr a s Hs. injection Hr as _ <-.
      rewrite absorb_streams. apply Hkeep. exact Hs.
    + intros d r0 d' Hr a s Hs. unfold next_brute_force_object in Hr.
      destruct (po_result _); injection Hr as _ <-; simpl; apply Hkeep; exact Hs.
    + intros d n g a s Hs. exact Hs.
    + intros a0 dict d r0 d' Hlazy. discriminate.
Qed.

(** X12.  Over a finite source the brute-force cursor only moves forward: after
    [locate_object], whatever tiers it went through and whatever it
    returned, no more of the source is left after the saved cursor than
    before, so a later scan never reads again what an earlier one has
    passed. *)
Theorem brute_force_cursor_never_rewinds (remaining : P -> nat) (fuel : nat)
    (num gen : Z) (doc : PDFDocument P) (r : result exn value) (doc' : PDFDocument P) :
  advances remaining ->
  locate_object fuel num gen doc = Some (r, doc') ->
  (remaining (brute_force_state doc') <= remaining (brute_force_state doc))%nat.
Proof.
  intros Hadv Hr.
  refine (locate_object_preserving
            (fun d d' => (remaining (brute_force_state d') <= remaining (brute_force_state d))%nat)
            _ _ _ _ _ fuel num gen doc r doc' Hr).
  - intros d. lia.
  - intros d1 d2 d3 H12 H23. lia.
  - intros offset d r0 d' Hp. injection Hp as _ <-. simpl. lia.
  - intros d r0 d' Hn. unfold next_brute_force_object in Hn.
    destruct (po_result _) as [v|] eqn:Hres; injection Hn as _ <-; simpl; [| lia].
    assert (Hlt := Hadv (brute_force_state d) (registry d) (streams d) v Hres). simpl in Hlt. lia.
  - intros d n g. simpl. lia.
Qed.

(** X9.  [obj_by_ref] never raises.  What it returns is the factory's image of
    the entry that the registry holds under the key afterwards, and when
    the key was registered before the call that entry is the one that was
    there. *)
Theorem obj_by_ref_returns_registry_entry (fuel : nat) (num gen : Z) (doc : PDFDocument P)
    (r : result exn value) (doc' : PDFDocument P) :
  obj_by_ref fuel num gen doc = Some (r, doc') ->
  exists v,
    registry doc' !! (num, gen) = Some v
    /\ r = Ok (obj_factory doc' v)
    /\ (forall v0, registry doc !! (num, gen) = Some v0 -> v = v0).
Proof.
  intros Hr. unfold obj_by_ref in Hr.
  destruct (bind_inv _ _ _ _ _ Hr) as [(e & Hl & _) | (v & d1 & Hl & Hf)].
  - destruct (locate_object_quiet _ _ _ _ _ _ Hl) as [a Ha]. discriminate.
  - injection Hf as <- <-. exists v.
    assert (Hv := locate_object_returns_entry _ _ _ _ _ _ Hl).
    split; [exact Hv |]. split; [reflexivity |].
    intros v0 Hv0. destruct (locate_object_growing _ _ _ _ _ _ Hl) as [_ Hk].
    specialize (Hk _ _ Hv0). congruence.
Qed.

End AcrossCalls.


(** ** A second call does not scan *)

Section NoRescan.
Context {P : Type} `{Collaborators P}.

(** Nothing is lost from the registry and the brute-force cursor is where
    it was. *)
Definition settled (doc doc' : PDFDocument P) : Prop :=
  grows doc doc' /\ brute_force_state doc' = brute_force_state doc.

Lemma xref_loop_again_settled (locate : Z -> Z -> M (PDFDocument P) value) num gen :
  (forall n g, growing (locate n g)) ->
  (forall n g doc v doc1, locate n g doc = Some (Ok v, doc1) ->
     forall doc2, grows doc1 doc2 ->
     exists doc3, locate n g doc2 = Some (Ok v, doc3) /\ settled doc2 doc3) ->
  forall xs doc da,
    xref_loop locate num gen xs doc = Some (Ok tt, da) ->
    forall doc2, grows da doc2 ->
    Registry_is_registered (registry doc2) num gen = true ->
    exists d2a, xref_loop locate num gen xs doc2 = Some (Ok tt, d2a) /\ settled doc2 d2a.
Proof.
  intros Hgrow Hagain. induction xs as [|xref xs IH]; intros doc da Hr doc2 Hg Hreg; simpl in *.
  - exists doc2. split; [reflexivity |]. split; [apply grows_refl | reflexivity].
  - destruct (in_use xref !! num) as [xre|] eqn:Hin;
      [destruct (generation xre =? gen) eqn:Hgen |].
    { exists (absorb doc2
                (parser_indirect_object (parser_reset (offset xre) (parser doc2))
                   (registry doc2) (streams doc2))).
      split; [| split; [apply absorb_grows | reflexivity]].
      unfold bind at 1. unfold bind at 1. unfold parse_at, is_registered.
      rewrite (grows_registered _ _ _ _ (absorb_grows doc2 _) Hreg). reflexivity. }
    all: apply bind_inv_Ok in Hr; destruct Hr as (found & d1 & Hf & Hr);
      inversion Hf; subst found d1; clear Hf;
      rewrite (bind_Ok _ _ doc2 false doc2) by reflexivity;
      destruct (compressed xref !! num) as [cre|] eqn:Hc;
      [destruct (c_generation cre =? gen) eqn:Hcg |].
    1, 4:
      apply bind_inv_Ok in Hr; destruct Hr as (found & d1 & Hf & Hr);
      apply bind_inv_Ok in Hf; destruct Hf as (w & d0 & Hloc & Hf);
      inversion Hf; subst found d1; clear Hf;
      assert (Hd0 : grows d0 da)
        by (destruct (Registry_is_registered (registry d0) num gen);
            [inversion Hr; subst; apply grows_refl
            | exact (xref_loop_growing _ _ _ _ Hgrow _ _ _ Hr)]);
      destruct (Hagain _ _ _ _ _ Hloc doc2 (grows_trans _ _ _ Hd0 Hg)) as (d3 & Hloc2 & Hg3);
      exists d3; split; [| exact Hg3];
      unfold bind at 1; unfold bind at 1; rewrite Hloc2; unfold is_registered;
      rewrite (grows_registered _ _ _ _ (proj1 Hg3) Hreg); reflexivity.
    all:
      apply bind_inv_Ok in Hr; destruct Hr as (found & d1 & Hf & Hr);
      inversion Hf; subst found d1; clear Hf;
      rewrite (bind_Ok _ _ doc2 false doc2) by reflexivity;
      exact (IH _ _ Hr _ Hg Hreg).
Qed.

Lemma locate_object_again_settled fuel :
  forall num gen (doc : PDFDocument P) v doc1,
    locate_object fuel num gen doc = Some (Ok v, doc1) ->
    forall doc2, grows doc1 doc2 ->
    exists doc3, locate_object fuel num gen doc2 = Some (Ok v, doc3) /\ settled doc2 doc3.
Proof.
  induction fuel as [|fuel IH]; intros num gen doc v doc1 Hr doc2 Hg; [discriminate |].
  assert (Hv := locate_object_returns_entry _ _ _ _ _ _ Hr).
  assert (Hg1 := locate_object_growing _ _ _ _ _ _ Hr).
  simpl in Hr.
  apply bind_inv_Ok in Hr. destruct Hr as ([] & da & Hx & Hr).
  apply bind_inv_Ok in Hr. destruct Hr as ([] & db & Hb & Hr).
  injection Hr as Hget Hdb; subst doc1.
  assert (Hv2 : registry doc2 !! (num, gen) = Some v) by (apply Hg; exact Hv).
  assert (Hreg := registered_of_lookup _ _ _ _ Hv2).
  assert (Hda : grows da doc2)
    by exact (grows_trans _ _ _ (brute_force_loop_growing _ _ _ _ _ _ Hb) Hg).
  assert (Ht : trailer doc2 = trailer doc)
    by (destruct Hg as [Ht2 _]; destruct Hg1 as [Ht1 _]; congruence).
  destruct (xref_loop_again_settled (locate_object fuel) num gen
              (locate_object_growing fuel) IH _ _ _ Hx doc2 Hda Hreg) as (d2a & Hx2 & Hg2).
  exists d2a. split; [| exact Hg2].
  simpl. rewrite Ht. rewrite (bind_Ok _ _ _ _ _ Hx2).
  assert (Hreg2 := grows_registered _ _ _ _ (proj1 Hg2) Hreg).
  rewrite (bind_Ok _ _ _ _ _ (brute_force_loop_registered fuel num gen d2a Hreg2)).
  cbv beta. unfold Registry_get. destruct Hg2 as [[_ Hk2] _]. rewrite (Hk2 _ _ Hv2).
  reflexivity.
Qed.

(** X11.  Once [locate_object] has returned a value for a key, calling it again
    for that key, at once or after any further resolutions, returns the
    same value without a brute-force scan: the saved cursor is where it
    was before the second call. *)
Theorem locate_object_again_does_not_scan (fuel : nat) (num gen : Z)
    (doc : PDFDocument P) (v : value) (doc1 doc2 : PDFDocument P) :
  locate_object fuel num gen doc = Some (Ok v, doc1) ->
  grows doc1 doc2 ->
  exists doc3,
    locate_object fuel num gen doc2 = Some (Ok v, doc3)
    /\ brute_force_state doc3 = brute_force_state doc2.
Proof.
  intros Hr Hg.
  destruct (locate_object_again_settled fuel num gen doc v doc1 Hr doc2 Hg)
    as (doc3 & Hr3 & _ & Hb).
  exists doc3. split; assumption.
Qed.

End NoRescan.

(** ** [deep_obj_by_ref] on indirect objects *)

Section DeepFacts.
Context {P : Type} `{Collaborators P}.

Lemma obj_by_ref_quiet fuel num gen : quiet (obj_by_ref fuel num gen).
Proof.
  unfold obj_by_ref. apply bind_quiet; [apply locate_object_quiet |].
  intros obj doc r doc' Hr. injection Hr as <- _. eauto.
Qed.

Lemma deep_loop_quiet fuel rfuel : forall obj counter, quiet (deep_loop fuel rfuel obj counter).
Proof.
  induction fuel as [|fuel IH]; intros obj counter.
  - destruct obj; simpl; try apply ret_quiet.
    destruct (counter =? 0); [apply ret_quiet | intros doc r doc' Hr; discriminate].
  - destruct obj; simpl; try apply ret_quiet.
    destruct (counter =? 0); [apply ret_quiet |].
    apply bind_quiet; [apply obj_by_ref_quiet |]. intros o. apply IH.
Qed.

(** The loop hands an IndirectObject back only when the counter has come
    down to zero. *)
Lemma deep_loop_indirect_object fuel rfuel :
  forall obj counter (doc : PDFDocument P) n g w doc',
    deep_loop fuel rfuel obj counter doc = Some (Ok (IndirectObject n g w), doc') ->
    0 <= counter.
Proof.
  induction fuel as [|fuel IH]; intros obj counter doc n g w doc' Hr.
  - destruct obj; simpl in Hr; try (injection Hr as Heq _; discriminate).
    destruct (counter =? 0) eqn:Hc; [apply Z.eqb_eq in Hc; lia | discriminate].
  - destruct obj; simpl in Hr; try (injection Hr as Heq _; discriminate).
    destruct (counter =? 0) eqn:Hc; [apply Z.eqb_eq in Hc; lia |].
    apply bind_inv_Ok in Hr. destruct Hr as (o & d1 & _ & Hr).
    specialize (IH _ _ _ _ _ _ _ Hr). lia.
Qed.

(** X13.  Whatever [deep_obj_by_ref] is given, it ends in one of two ways: it
    returns a value that is not an IndirectObject, or it raises the
    ValueError of line 132; and it raises only when [maxdepth] is not
    negative, since a negative counter never becomes false. *)
Theorem deep_obj_by_ref_outcome (fuel rfuel : nat) (obj : value) (maxdepth : Z)
    (doc : PDFDocument P) (r : result exn value) (doc' : PDFDocument P) :
  deep_obj_by_ref fuel rfuel obj maxdepth doc = Some (r, doc') ->
  (exists v, r = Ok v /\ forall n g w, v <> IndirectObject n g w)
  \/ (r = Raise (ValueError "Max reference depth exceeded") /\ 0 <= maxdepth).
Proof.
  intros Hr. unfold deep_obj_by_ref in Hr.
  destruct (bind_inv _ _ _ _ _ Hr) as [(e & Hl & _) | (o & d1 & Hl & Hm)].
  - destruct (deep_loop_quiet _ _ _ _ _ _ _ Hl) as [a Ha]. discriminate.
  - destruct o; try (injection Hm as <- _; left; eexists; split; [reflexivity | congruence]).
    injection Hm as <- _. right. split; [reflexivity |].
    exact (deep_loop_indirect_object _ _ _ _ _ _ _ _ _ Hl).
Qed.

(** X14.  With a budget that is not negative the loop makes at most [maxdepth]
    resolutions: if every resolution returns, on the documents that an
    invariant describes, then [deep_obj_by_ref] returns within [maxdepth]
    iterations of its loop. *)
Theorem deep_obj_by_ref_within_budget (rfuel : nat) (Inv : PDFDocument P -> Prop)
    (obj : value) (maxdepth : Z) (doc : PDFDocument P) :
  (forall n g d, Inv d ->
     exists r d', obj_by_ref rfuel n g d = Some (r, d') /\ Inv d') ->
  0 <= maxdepth ->
  Inv doc ->
  exists r doc',
    deep_obj_by_ref (Z.to_nat maxdepth) rfuel obj maxdepth doc = Some (r, doc').
Proof.
  intros Hres Hmax Hinv.
  assert (Hloop : forall fuel o d, Inv d ->
            exists r d', deep_loop fuel rfuel o (Z.of_nat fuel) d = Some (r, d')).
  { induction fuel as [|fuel IH]; intros o d Hd.
    - destruct o; simpl; eauto.
    - destruct o; simpl; try (eexists; eexists; reflexivity).
      destruct (Z.pos (Pos.of_succ_nat fuel) =? 0) eqn:Hc; [apply Z.eqb_eq in Hc; lia |].
      destruct (Hres num0 gen0 d Hd) as (r & d1 & Hr & Hd1).
      unfold bind. rewrite Hr. destruct r as [o'|e]; [| eauto].
      replace (Z.of_nat (S fuel) - 1) with (Z.of_nat fuel) by lia.
      exact (IH o' d1 Hd1). }
  destruct (Hloop (Z.to_nat maxdepth) obj doc Hinv) as (r & d' & Hr).
  rewrite Z2Nat.id in Hr by exact Hmax.
  unfold deep_obj_by_ref, bind. rewrite Hr.
  destruct r as [o|e]; [| eauto]. destruct o; eauto.
Qed.

End DeepFacts.


(** ** The shape of what [build] returns *)

Section Shape.
Context {P : Type} `{Collaborators P}.

Lemma comprehension_length {S A B} (f : A -> M S B) (l : list A) :
  forall s bs s', comprehension f l s = Some (Ok bs, s') -> length bs = length l.
Proof.
  induction l as [|x l IH]; intros s bs s' Hc; simpl in Hc.
  - injection Hc as <- _. reflexivity.
  - apply bind_inv_Ok in Hc. destruct Hc as (y & s1 & _ & Hc).
    apply bind_inv_Ok in Hc. destruct Hc as (ys & s2 & Hys & Hc).
    injection Hc as <- _. simpl. rewrite (IH _ _ _ Hys). reflexivity.
Qed.

Lemma comprehension_keys {S} (rec : value -> M S value) (d : list (string * value)) :
  forall s d' s',
    comprehension (fun '(k, o) => o <- rec o ;; ret (k, o)) d s = Some (Ok d', s') ->
    map fst d' = map fst d.
Proof.
  induction d as [|[k o] d IH]; intros s d' s' Hc; simpl in Hc.
  - injection Hc as <- _. reflexivity.
  - apply bind_inv_Ok in Hc. destruct Hc as ([k' o'] & s1 & Hy & Hc).
    apply bind_inv_Ok in Hy. destruct Hy as (o1 & s0 & _ & Hy). injection Hy as <- _ _.
    apply bind_inv_Ok in Hc. destruct Hc as (ys & s2 & Hys & Hc).
    injection Hc as <- _. simpl. rewrite (IH _ _ _ Hys). reflexivity.
Qed.

(** X17.  What [build] returns has the shape of what it was given.  For an Array
    it is an array of the same length.  For a Dictionary it is the factory's
    image of a dictionary with the same keys in the same order, and of the
    very same dictionary when [lazy].  For a Stream object built eagerly it
    is the factory's image of that object, whose dictionary then has the
    keys it had, in the same order. *)
Theorem build_keeps_shape (fuel rfuel : nat) (obj : value)
    (visited : option (list IndirectReference)) (lazy : bool) (doc : PDFDocument P)
    (res : value) (visited' : list IndirectReference) (doc' : PDFDocument P) :
  build fuel rfuel obj visited lazy doc = Some (Ok res, (visited', doc')) ->
  (forall items, obj = Array items ->
     exists items', res = Array items' /\ length items' = length items)
  /\ (forall d, obj = Dictionary d ->
     exists d', res = obj_factory doc' (Dictionary d') /\ map fst d' = map fst d
                /\ (lazy = true -> d' = d))
  /\ (forall a s, obj = StreamAt a -> lazy = false -> streams doc !! a = Some s ->
     res = obj_factory doc' (StreamAt a)
     /\ exists s', streams doc' !! a = Some s'
                   /\ map fst (dictionary s') = map fst (dictionary s)).
Proof.
  intros Hb. destruct fuel as [|fuel]; [discriminate |]. cbn [build] in Hb.
  apply bind_inv_Ok in Hb. destruct Hb as ([o on_return] & [v1 d1] & He & Hb).
  apply bind_inv_Ok in Hb. destruct Hb as (o' & [v2 d2] & Hbody & Hl).
  apply leave_inv in Hl. destruct Hl as (-> & -> & _).
  apply enter_inv in He.
  split; [| split].
  - intros items ->.
    destruct He as [(_ & _ & -> & ->) | (_ & r & Hobj & _)]; [| discriminate].
    simpl in Hbody. apply bind_inv_Ok in Hbody. destruct Hbody as (items' & s1 & Hc & Hr).
    injection Hr as <- _. exists items'. split; [reflexivity |].
    exact (comprehension_length _ _ _ _ _ Hc).
  - intros d ->.
    destruct He as [(_ & _ & -> & ->) | (_ & r & Hobj & _)]; [| discriminate].
    simpl in Hbody. apply bind_inv_Ok in Hbody. destruct Hbody as (d' & [v3 d3] & Hc & Hr).
    apply on_doc_inv in Hr. destruct Hr as [_ Hr]. injection Hr as <- <-.
    exists d'. split; [reflexivity |].
    destruct lazy; simpl in Hc.
    + injection Hc as <- _ _. split; [reflexivity | reflexivity].
    + split; [exact (comprehension_keys _ _ _ _ _ Hc) | discriminate].
  - intros a s -> -> Hs.
    destruct He as [(_ & _ & -> & ->) | (_ & r & Hobj & _)]; [| discriminate].
    simpl in Hbody. apply bind_inv_Ok in Hbody. destruct Hbody as ([] & [v3 d3] & Hc & Hr).
    apply on_doc_inv in Hr. destruct Hr as [_ Hr]. injection Hr as <- <-.
    split; [reflexivity |].
    apply bind_inv_Ok in Hc. destruct Hc as (d & [v4 d4] & Hget & Hc).
    apply on_doc_inv in Hget. destruct Hget as [_ Hget].
    unfold get_dictionary in Hget. rewrite Hs in Hget. injection Hget as <- <-.
    apply bind_inv_Ok in Hc. destruct Hc as (d' & [v5 d5] & Hcomp & Hset).
    apply on_doc_inv in Hset. destruct Hset as [_ Hset]. unfold set_dictionary in Hset.
    destruct (streams d5 !! a) as [s0|]; [| discriminate].
    injection Hset as <-. simpl. rewrite lookup_insert_eq.
    eexists. split; [reflexivity |]. simpl.
    exact (comprehension_keys _ _ _ _ _ Hcomp).
Qed.

End Shape.


(** ** Runs of the sample documents *)

Lemma empty_source_keeps_streams : @parser_keeps_streams unit empty_source.
Proof. intros p reg h a s Hs. split; exact Hs. Qed.

Lemma empty_source_resolves (n g : Z) (d : PDFDocument unit) :
  xrefs (trailer d) = [] ->
  exists r d', @obj_by_ref unit empty_source 2 n g d = Some (r, d') /\ xrefs (trailer d') = [].
Proof.
  intros Hx. unfold obj_by_ref, bind. rewrite locate_object_empty_source by exact Hx.
  destruct (registry d !! (n, g)); eexists; eexists; (split; [reflexivity | exact Hx]).
Qed.

Lemma obj_by_ref_returns_registry_entry_witness :
  exists r doc',
    @obj_by_ref unit empty_source 2 1 0 cycle_doc = Some (r, doc')
    /\ exists v,
         registry doc' !! (1, 0) = Some v
         /\ r = Ok (@obj_factory unit empty_source doc' v)
         /\ (forall v0, registry cycle_doc !! (1, 0) = Some v0 -> v = v0).
Proof.
  destruct (@obj_by_ref unit empty_source 2 1 0 cycle_doc) as [[r doc']|] eqn:Hrun;
    [| vm_compute in Hrun; discriminate].
  exists r, doc'. split; [reflexivity |].
  exact (@obj_by_ref_returns_registry_entry unit empty_source 2 1 0 cycle_doc r doc' Hrun).
Defined.

Lemma missing_key_resolves_to_null_witness :
  exists r doc',
    @locate_object unit empty_source 2 7 0 blank_doc = Some (r, doc')
    /\ r = Ok null /\ registry doc' !! (7, 0) = Some null.
Proof.
  destruct (@locate_object unit empty_source 2 7 0 blank_doc) as [[r doc']|] eqn:Hrun;
    [| vm_compute in Hrun; discriminate].
  exists r, doc'. split; [reflexivity |].
  exact (@missing_key_resolves_to_null unit empty_source 7 0
           (empty_source_never_parsed 7 0) 2 blank_doc r doc' eq_refl Hrun).
Defined.

Lemma locate_object_again_does_not_scan_witness :
  exists v doc1,
    @locate_object unit empty_source 2 7 0 blank_doc = Some (Ok v, doc1)
    /\ exists doc3,
         @locate_object unit empty_source 2 7 0 doc1 = Some (Ok v, doc3)
         /\ brute_force_state doc3 = brute_force_state doc1.
Proof.
  destruct (@locate_object unit empty_source 2 7 0 blank_doc) as [[[v|e] doc1]|] eqn:Hrun;
    try (vm_compute in Hrun; discriminate).
  exists v, doc1. split; [reflexivity |].
  exact (@locate_object_again_does_not_scan unit empty_source 2 7 0 blank_doc v doc1 doc1
           Hrun (grows_refl doc1)).
Defined.

(** On [listed_source] a body element that parses moves the cursor one
    object further. *)
Lemma listed_source_advances :
  @advances (list (Z * Z * value) * nat) listed_source listed_remaining.
Proof.
  intros [src pos] reg h v o. subst o. simpl. unfold listed_read. simpl.
  destruct (src !! pos) as [[[n g] w]|] eqn:Hread; simpl; [| discriminate].
  intros _. apply lookup_lt_Some in Hread. unfold listed_remaining. simpl. lia.
Qed.

(** The scan for object 7 reads objects 3 and 7: of the three objects one
    is left after the saved cursor. *)
Lemma brute_force_cursor_never_rewinds_witness :
  exists doc',
    @locate_object _ listed_source 4 7 0 scan_doc
    = Some (Ok (IndirectObject 7 0 (Integer 42)), doc')
    /\ listed_remaining (brute_force_state scan_doc) = 3%nat
    /\ listed_remaining (brute_force_state doc') = 1%nat
    /\ (listed_remaining (brute_force_state doc')
        <= listed_remaining (brute_force_state scan_doc))%nat.
Proof.
  destruct (@locate_object _ listed_source 4 7 0 scan_doc) as [[r doc']|] eqn:Hrun;
    [| vm_compute in Hrun; discriminate].
  assert (Hle := @brute_force_cursor_never_rewinds _ listed_source listed_remaining 4 7 0
                   scan_doc r doc' listed_source_advances Hrun).
  vm_compute in Hrun. injection Hrun as <- <-.
  eexists. split; [reflexivity |]. split; [reflexivity |]. split; [reflexivity |].
  exact Hle.
Defined.

Lemma deep_obj_by_ref_outcome_witness :
  exists r doc',
    @deep_obj_by_ref unit empty_source 3 2 (IndirectObject 1 0 null) 5 cycle_doc
    = Some (r, doc')
    /\ ((exists v, r = Ok v /\ forall n g w, v <> IndirectObject n g w)
        \/ (r = Raise (ValueError "Max reference depth exceeded") /\ 0 <= 5)).
Proof.
  destruct (@deep_obj_by_ref unit empty_source 3 2 (IndirectObject 1 0 null) 5 cycle_doc)
    as [[r doc']|] eqn:Hrun; [| vm_compute in Hrun; discriminate].
  exists r, doc'. split; [reflexivity |].
  exact (@deep_obj_by_ref_outcome unit empty_source 3 2 (IndirectObject 1 0 null) 5
           cycle_doc r doc' Hrun).
Defined.

Lemma deep_obj_by_ref_within_budget_witness :
  exists r doc',
    @deep_obj_by_ref unit empty_source (Z.to_nat 3) 2 (IndirectObject 1 0 null) 3 cycle_doc
    = Some (r, doc').
Proof.
  apply (@deep_obj_by_ref_within_budget unit empty_source 2
           (fun d => xrefs (trailer d) = []) (IndirectObject 1 0 null) 3 cycle_doc).
  - intros n g d Hd. exact (empty_source_resolves n g d Hd).
  - lia.
  - reflexivity.
Defined.

Lemma build_keeps_registry_entries_witness :
  exists r visited' doc',
    @build unit empty_source 4 2 (Array [ref 1 0; ref 9 0]) None false cycle_doc
    = Some (r, (visited', doc'))
    /\ trailer doc' = trailer cycle_doc
    /\ forall k v, registry cycle_doc !! k = Some v -> registry doc' !! k = Some v.
Proof.
  destruct (@build unit empty_source 4 2 (Array [ref 1 0; ref 9 0]) None false cycle_doc)
    as [[r [visited' doc']]|] eqn:Hrun; [| vm_compute in Hrun; discriminate].
  exists r, visited', doc'. split; [reflexivity |].
  exact (@build_keeps_registry_entries unit empty_source 4 2 _ None false cycle_doc
           r visited' doc' Hrun).
Defined.

Lemma build_keeps_stream_payloads_witness :
  exists r visited' doc',
    @build unit empty_source 2 1 (StreamAt 0) None false stream_doc
    = Some (r, (visited', doc'))
    /\ (forall a s, streams stream_doc !! a = Some s ->
          exists s', streams doc' !! a = Some s' /\ stream s' = stream s)
    /\ (false = true ->
        forall a s, streams stream_doc !! a = Some s -> streams doc' !! a = Some s).
Proof.
  destruct (@build unit empty_source 2 1 (StreamAt 0) None false stream_doc)
    as [[r [visited' doc']]|] eqn:Hrun; [| vm_compute in Hrun; discriminate].
  exists r, visited', doc'. split; [reflexivity |].
  exact (@build_keeps_stream_payloads unit empty_source 2 1 (StreamAt 0) None false
           stream_doc r visited' doc' empty_source_keeps_streams Hrun).
Defined.

Lemma build_keeps_shape_witness :
  exists res visited' doc',
    @build unit empty_source 4 2 (Array [ref 1 0; ref 9 0]) None false cycle_doc
    = Some (Ok res, (visited', doc'))
    /\ (forall items, Array [ref 1 0; ref 9 0] = Array items ->
          exists items', res = Array items' /\ length items' = length items)
    /\ (forall d, Array [ref 1 0; ref 9 0] = Dictionary d ->
          exists d', res = @obj_factory unit empty_source doc' (Dictionary d')
                     /\ map fst d' = map fst d /\ (false = true -> d' = d))
    /\ (forall a s, Array [ref 1 0; ref 9 0] = StreamAt a -> false = false ->
          streams cycle_doc !! a = Some s ->
          res = @obj_factory unit empty_source doc' (StreamAt a)
          /\ exists s', streams doc' !! a = Some s'
                        /\ map fst (dictionary s') = map fst (dictionary s)).
Proof.
  destruct (@build unit empty_source 4 2 (Array [ref 1 0; ref 9 0]) None false cycle_doc)
    as [[[res|e] [visited' doc']]|] eqn:Hrun; try (vm_compute in Hrun; discriminate).
  exists res, visited', doc'. split; [reflexivity |].
  exact (@build_keeps_shape unit empty_source 4 2 _ None false cycle_doc
           res visited' doc' Hrun).
Defined.

End document_properties.
